(** * MetaGPT UI: the real-time event pipeline

    A shallow embedding of the three cooperating parts of the browser client:

    - the State Projector ([AgentNetwork], src/unnamed/part_001), which folds
      socket events into the agents / messages / handovers snapshot and runs
      the one-off bootstrap fetch;
    - the Layout Projector ([AgentVisualization.tsx]), which derives circle
      positions and connector geometry;
    - the Event Channel ([services/socket.ts], class [SocketService]);
    - the component on the channel: the effect that subscribes
      [AgentNetwork] to the service, its clean-up, and what it renders.

    Conventions.  JavaScript numbers that are counters, indices or timestamps
    are integers ([nat], [Z]); the geometry is carried out over the real
    numbers [R], an idealisation of IEEE doubles.  The listener [Map] of
    the service is a [gmap string _].  The plain object [positions] is the
    [gmap string _] of what was stored in it, looked up through
    [Layout.read], which follows the prototype chain as a property access
    on a plain object does.  Arrays are lists.  Code that can throw lives
    in a small state-and-exception monad. *)

From Stdlib Require Import Reals Lra QArith.
From stdpp Require Import gmap strings list fin_maps pretty.

Open Scope string_scope.
Open Scope list_scope.

(* ===================================================================== *)
(** * Data model (services/socket.ts) *)
(* ===================================================================== *)

Inductive SocketEvent :=
  | CONNECT | DISCONNECT | CONNECT_ERROR
  | AGENT_UPDATE | AGENT_MESSAGE | AGENT_THINKING | AGENT_HANDOVER
  | EXECUTION_STARTED | EXECUTION_COMPLETED | EXECUTION_ERROR
  | SYSTEM_MESSAGE.

(** The string value of each enum member: the key of the listener map. *)
Definition event_name (e : SocketEvent) : string :=
  match e with
  | CONNECT => "connect"
  | DISCONNECT => "disconnect"
  | CONNECT_ERROR => "connect_error"
  | AGENT_UPDATE => "agent_update"
  | AGENT_MESSAGE => "agent_message"
  | AGENT_THINKING => "agent_thinking"
  | AGENT_HANDOVER => "agent_handover"
  | EXECUTION_STARTED => "execution_started"
  | EXECUTION_COMPLETED => "execution_completed"
  | EXECUTION_ERROR => "execution_error"
  | SYSTEM_MESSAGE => "system_message"
  end.

#[global] Instance SocketEvent_eq_dec : EqDecision SocketEvent.
Proof. solve_decision. Defined.

Inductive AgentStatus := IDLE | THINKING | SPEAKING | LISTENING.

Record Agent := {
  id : string;
  name : string;
  role : string;
  status : AgentStatus;
  color : string;
  llm_type : option string;
  last_updated : option Z
}.

Inductive MessageType := thinking | message | system | error.

Record AgentMessage := {
  msg_id : string;
  agent_id : string;
  content : string;
  msg_timestamp : Z;
  type : MessageType
}.

Record AgentHandover := {
  from : string;
  to : string;
  handover_message : option string;
  timestamp : Z
}.

(* ===================================================================== *)
(** * Exceptions and state: the monad of effectful code *)
(* ===================================================================== *)

Module JS.

Inductive exn :=
  | TypeError (msg : string)
  | NetworkError (msg : string)
  | UserError (msg : string).

(** How a JavaScript statement completes. *)
Inductive completion (A : Type) :=
  | Normal (a : A)
  | Throw (e : exn).
Arguments Normal {A} a.
Arguments Throw {A} e.

(** Pure code that may throw. *)
Definition cbind {A B} (c : completion A) (k : A → completion B) : completion B :=
  match c with
  | Normal a => k a
  | Throw e => Throw e
  end.

(** [Array.prototype.map] with a callback that receives element and index:
    the first exception aborts the whole call. *)
Fixpoint map_from {A B} (k : A → nat → completion B) (index : nat) (l : list A)
    : completion (list B) :=
  match l with
  | [] => Normal []
  | a :: l' =>
      cbind (k a index) (λ b,
      cbind (map_from k (S index) l') (λ bs, Normal (b :: bs)))
  end.

Definition array_map {A B} (k : A → nat → completion B) (l : list A)
    : completion (list B) :=
  map_from k 0 l.

(** Code that reads and writes a state [St] and may throw; assignments made
    before an exception is thrown persist. *)
Definition M (St A : Type) : Type := St → completion A * St.

Definition ret {St A} (a : A) : M St A := λ s, (Normal a, s).

Definition bind {St A B} (c : M St A) (k : A → M St B) : M St B :=
  λ s, match c s with
       | (Normal a, s') => k a s'
       | (Throw e, s') => (Throw e, s')
       end.

Definition throw {St A} (e : exn) : M St A := λ s, (Throw e, s).

Definition get {St} : M St St := λ s, (Normal s, s).

Definition modify {St} (f : St → St) : M St unit := λ s, (Normal tt, f s).

(** [try { body } catch (error) { handler(error) }] *)
Definition try_catch {St A} (body : M St A) (handler : exn → M St A) : M St A :=
  λ s, match body s with
       | (Normal a, s') => (Normal a, s')
       | (Throw e, s') => handler e s'
       end.

(** [forEach] over the elements of an array or [Set], in order; an exception
    escaping the callback aborts the iteration. *)
Fixpoint forEach {St A} (l : list A) (k : A → M St unit) : M St unit :=
  match l with
  | [] => ret tt
  | a :: l' => bind (k a) (λ _, forEach l' k)
  end.

(** Console output, kept as a journal. *)
Inductive log_entry :=
  | Log (text : string)
  | Warn (text : string)
  | Error (text : string) (cause : option exn).

End JS.

Declare Scope js_scope.
Delimit Scope js_scope with js.
Notation "'let!' x ':=' c 'in' k" := (JS.bind c (λ x, k))
  (at level 10, x name, c at level 100, k at level 200) : js_scope.
Notation "'do!' c 'in' k" := (JS.bind c (λ _, k))
  (at level 10, c at level 100, k at level 200) : js_scope.
Notation "'let?' x ':=' c 'in' k" := (JS.cbind c (λ x, k))
  (at level 10, x name, c at level 100, k at level 200) : js_scope.

(* ===================================================================== *)
(** * State Projector (AgentNetwork, src/unnamed/part_001) *)
(* ===================================================================== *)

Module Projector.

(** The five [useState] cells of the component. *)
Record snapshot := {
  agents : list Agent;
  connections : list AgentHandover;
  activeAgent : option string;
  messages : list AgentMessage;
  isConnected : bool
}.

Definition initial : snapshot :=
  {| agents := []; connections := []; activeAgent := None;
     messages := []; isConnected := false |}.

Definition setAgents (f : list Agent → list Agent) (s : snapshot) : snapshot :=
  {| agents := f (agents s); connections := connections s;
     activeAgent := activeAgent s; messages := messages s;
     isConnected := isConnected s |}.

Definition setConnections (f : list AgentHandover → list AgentHandover)
    (s : snapshot) : snapshot :=
  {| agents := agents s; connections := f (connections s);
     activeAgent := activeAgent s; messages := messages s;
     isConnected := isConnected s |}.

Definition setActiveAgent (a : option string) (s : snapshot) : snapshot :=
  {| agents := agents s; connections := connections s;
     activeAgent := a; messages := messages s;
     isConnected := isConnected s |}.

Definition setMessages (f : list AgentMessage → list AgentMessage)
    (s : snapshot) : snapshot :=
  {| agents := agents s; connections := connections s;
     activeAgent := activeAgent s; messages := f (messages s);
     isConnected := isConnected s |}.

Definition setIsConnected (b : bool) (s : snapshot) : snapshot :=
  {| agents := agents s; connections := connections s;
     activeAgent := activeAgent s; messages := messages s;
     isConnected := b |}.

(** [Array.prototype.findIndex]: the first index whose element satisfies the
    predicate, [-1] when there is none. *)
Fixpoint findIndex {A} (p : A → bool) (l : list A) : Z :=
  match l with
  | [] => (-1)%Z
  | a :: l' =>
      if p a then 0%Z
      else let r := findIndex p l' in
           if (r <? 0)%Z then (-1)%Z else (r + 1)%Z
  end.

(** The updater passed to [setAgents] by the AGENT_UPDATE handler. *)
Definition upsert (data : Agent) (prev : list Agent) : list Agent :=
  let existing := findIndex (λ a, bool_decide (id a = id data)) prev in
  if (0 <=? existing)%Z then
    let updated := prev in
    <[Z.to_nat existing := data]> updated
  else
    prev ++ [data].

(** Events the component subscribes to, with their payloads. *)
Inductive live_event :=
  | EvConnect
  | EvDisconnect
  | EvAgentUpdate (data : Agent)
  | EvAgentMessage (data : AgentMessage)
  | EvAgentThinking (data : AgentMessage)
  | EvAgentHandover (data : AgentHandover).

(** One handler invocation. *)
Definition handle (e : live_event) (s : snapshot) : snapshot :=
  match e with
  | EvConnect => setIsConnected true s
  | EvDisconnect => setIsConnected false s
  | EvAgentUpdate data => setAgents (upsert data) s
  | EvAgentMessage data =>
      setActiveAgent (Some (agent_id data))
        (setMessages (λ prev, prev ++ [data]) s)
  | EvAgentThinking data =>
      setActiveAgent (Some (agent_id data))
        (setMessages (λ prev, prev ++ [data]) s)
  | EvAgentHandover data =>
      setActiveAgent (Some (to data))
        (setConnections (λ prev, prev ++ [data]) s)
  end.

(** Events are applied in delivery order. *)
Definition run (evs : list live_event) (s : snapshot) : snapshot :=
  foldl (λ s e, handle e s) s evs.

(** Views computed at render time. *)
Definition slice_last {A} (n : nat) (l : list A) : list A :=
  drop (length l - n) l.

Definition recentConnections (s : snapshot) : list AgentHandover :=
  slice_last 10 (connections s).

Definition recentMessages (s : snapshot) : list AgentMessage :=
  slice_last 5 (messages s).

(** Projections of an event sequence onto each log. *)
Definition update_of (e : live_event) : option Agent :=
  match e with EvAgentUpdate a => Some a | _ => None end.

Definition message_of (e : live_event) : option AgentMessage :=
  match e with
  | EvAgentMessage m | EvAgentThinking m => Some m
  | _ => None
  end.

Definition handover_of (e : live_event) : option AgentHandover :=
  match e with EvAgentHandover h => Some h | _ => None end.

Definition updates_of (evs : list live_event) : list Agent := omap update_of evs.
Definition messages_of (evs : list live_event) : list AgentMessage :=
  omap message_of evs.
Definition handovers_of (evs : list live_event) : list AgentHandover :=
  omap handover_of evs.

(** The agent an event points the active-agent pointer at, if any. *)
Definition pointer_of (e : live_event) : option string :=
  match e with
  | EvAgentMessage m | EvAgentThinking m => Some (agent_id m)
  | EvAgentHandover h => Some (to h)
  | _ => None
  end.

(** The payload of the last update event carrying identifier [i]. *)
Definition last_update (i : string) (ups : list Agent) : option Agent :=
  last (filter (λ a, id a = i) ups).

(** The record stored under identifier [i], as [agents.find] sees it. *)
Definition by_id (i : string) (l : list Agent) : option Agent :=
  find (λ a, bool_decide (id a = i)) l.

(** The sender shown in the activity feed:
    [agents.find(a => a.id === message.agent_id)?.name || message.agent_id]. *)
Definition senderLabel (s : snapshot) (m : AgentMessage) : string :=
  match name <$> by_id (agent_id m) (agents s) with
  | Some n => if bool_decide (n = "") then agent_id m else n
  | None => agent_id m
  end.

End Projector.

(* ===================================================================== *)
(** * Bootstrap fetch (AgentNetwork, second effect) *)
(* ===================================================================== *)

Module Bootstrap.
Import JS Projector.
Local Open Scope js_scope.

(** What awaiting [fetch(url)] followed by [response.json()] yields: one of
    the two promises rejects, or the parsed body is at hand and [field] is
    the property the code reads from it ([None] when missing or falsy). *)
Inductive fetched (A : Type) :=
  | Rejected (reason : string)
  | Resolved (field : option A).
Arguments Rejected {A} reason.
Arguments Resolved {A} field.

(** The three query endpoints.  [/api/agents] answers with an object mapping
    ids to agents, given here as its properties in enumeration order. *)
Record server := {
  api_agents : fetched (list (string * Agent));
  api_messages : fetched (list AgentMessage);
  api_handovers : fetched (list AgentHandover)
}.

(** Socket events delivered while each of the three requests is pending:
    every [await] hands control back to the event loop. *)
Record schedule := {
  during_agents : list live_event;
  during_messages : list live_event;
  during_handovers : list live_event
}.

Definition quiet : schedule :=
  {| during_agents := []; during_messages := []; during_handovers := [] |}.

Record world := {
  snap : snapshot;
  console : list log_entry
}.

Definition update (f : snapshot → snapshot) : M world unit :=
  modify (λ w, {| snap := f (snap w); console := console w |}).

Definition console_error (text : string) (cause : exn) : M world unit :=
  modify (λ w, {| snap := snap w;
                  console := console w ++ [Error text (Some cause)] |}).

(** [await]: the pending socket events run first, then the promise settles. *)
Definition await {A} (pending : list live_event) (r : fetched A)
    : M world (option A) :=
  do! update (run pending) in
  match r with
  | Rejected reason => throw (NetworkError reason)
  | Resolved field => ret field
  end.

Definition Object_values {A} (o : list (string * A)) : list A := o.*2.

Definition fetchData (srv : server) (sch : schedule) : M world unit :=
  try_catch
    (let! agentsData_agents := await (during_agents sch) (api_agents srv) in
     do! match agentsData_agents with
         | Some o => update (setAgents (λ _, Object_values o))
         | None => ret tt
         end in
     let! messagesData_messages :=
       await (during_messages sch) (api_messages srv) in
     do! match messagesData_messages with
         | Some ms => update (setMessages (λ _, ms))
         | None => ret tt
         end in
     let! handoversData_handovers :=
       await (during_handovers sch) (api_handovers srv) in
     match handoversData_handovers with
     | Some hs => update (setConnections (λ _, hs))
     | None => ret tt
     end)
    (λ error, console_error "Error fetching initial data:" error).



(** What the network does with one request.  [fetch] rejects only when no
    response arrives; a response resolves it whatever its status, and the
    code reads neither [response.ok] nor [response.status].  The body is then
    parsed by [response.json()], which rejects unless the text is JSON; the
    field is read from the parsed value, which throws, inside the same [try],
    when that value is [null]. *)
Inductive body (A : Type) :=
  | NotJson
  | JsonNull
  | Json (field : option A).
Arguments NotJson {A}.
Arguments JsonNull {A}.
Arguments Json {A} field.

Inductive exchange (A : Type) :=
  | NoResponse (reason : string)
  | Response (status : nat) (content : body A).
Arguments NoResponse {A} reason.
Arguments Response {A} status content.

(** [response.ok]. *)
Definition ok (status : nat) : bool :=
  bool_decide (200 ≤ status ≤ 299)%nat.

(** How the two awaits and the field read of one query end. *)
Definition settle {A} (e : exchange A) : fetched A :=
  match e with
  | NoResponse reason => Rejected reason
  | Response _ NotJson => Rejected "Unexpected token in JSON"
  | Response _ JsonNull => Rejected "Cannot read properties of null"
  | Response _ (Json field) => Resolved field
  end.

Definition served (a : exchange (list (string * Agent)))
    (m : exchange (list AgentMessage)) (h : exchange (list AgentHandover))
    : server :=
  {| api_agents := settle a; api_messages := settle m;
     api_handovers := settle h |}.

(** The three guarded installs of [fetchData], as snapshot transformers. *)
Definition install_agents (field : option (list (string * Agent)))
    (s : snapshot) : snapshot :=
  match field with
  | Some o => setAgents (λ _, Object_values o) s
  | None => s
  end.

Definition install_messages (field : option (list AgentMessage))
    (s : snapshot) : snapshot :=
  match field with
  | Some ms => setMessages (λ _, ms) s
  | None => s
  end.


End Bootstrap.

(* ===================================================================== *)
(** * Layout Projector (components/ui/AgentVisualization.tsx) *)
(* ===================================================================== *)

Module Layout.
Import JS.
Local Open Scope js_scope.
Local Open Scope R_scope.

Record point := { x : R; y : R }.

(** The part of the mounted [<svg>] element the code reads. *)
Record SVGElement := { clientWidth : Z; clientHeight : Z }.

(** [v || d] for a possibly undefined number: [undefined] and [0] are falsy. *)
Definition or_number (v : option Z) (d : Z) : Z :=
  match v with
  | Some n => if (n =? 0)%Z then d else n
  | None => d
  end.

(** [v || d] for a possibly undefined string: the empty string is falsy. *)
Definition or_string (v : option string) (d : string) : string :=
  match v with
  | Some s => if bool_decide (s = "") then d else s
  | None => d
  end.

Definition width (svgRef : option SVGElement) : R :=
  IZR (or_number (clientWidth <$> svgRef) 600).

Definition height (svgRef : option SVGElement) : R :=
  IZR (or_number (clientHeight <$> svgRef) 400).

(** [calculatePositions].  The result is the plain object [positions], given
    by what each assignment [positions[agent.id] = {x, y}] leaves to be read
    back under its id: an own property of the object or, for the id
    ["__proto__"], the prototype that this assignment gives the object (it
    creates no own property).  What [positions[key]] evaluates to for an
    arbitrary key is [read] below. *)
Definition calculatePositions (svgRef : option SVGElement) (agents : list Agent)
    : gmap string point :=
  let width := width svgRef in
  let height := height svgRef in
  let centerX := width / 2 in
  let centerY := height / 2 in
  let radius := Rmin width height * 0.35 in
  foldl
    (λ (positions : gmap string point) '(index, agent),
       let angle := (INR index / INR (length agents)) * 2 * PI in
       <[id agent := {| x := centerX + radius * cos angle;
                        y := centerY + radius * sin angle |}]> positions)
    ∅ (imap pair agents).

(** What one rendered [<g>] of a connection carries. *)
Record Connector := {
  path_from : point;
  path_control : point;
  path_to : point;
  gradient_from : string;
  gradient_to : string;
  animated : bool;
  label : option (string * point)
}.

(** Reading a property of a value that may be [undefined]. *)
Definition prop {A} (o : option point) (f : point → A) : completion A :=
  match o with
  | Some p => Normal (f p)
  | None => Throw (TypeError "Cannot read properties of undefined")
  end.

Definition truthy {A} (o : option A) : bool :=
  match o with Some _ => true | None => false end.

(** The property names every plain object inherits from [Object.prototype]:
    functions, but for the accessor ["__proto__"], which yields the prototype
    itself. *)
Definition Object_prototype : list string :=
  ["constructor"; "__defineGetter__"; "__defineSetter__"; "hasOwnProperty";
   "__lookupGetter__"; "__lookupSetter__"; "isPrototypeOf";
   "propertyIsEnumerable"; "toString"; "valueOf"; "__proto__";
   "toLocaleString"].

(** What [positions[key]] can evaluate to. *)
Inductive member :=
  | Position (p : point)   (* an object [{x, y}] stored by [calculatePositions] *)
  | Builtin                (* a function or object inherited from [Object.prototype] *)
  | Coordinate (v : R)     (* a number inherited from a position installed as prototype *)
  | Undefined.

(** [positions[key]] on the plain object built by [calculatePositions]: what
    was assigned under [key]; else what the prototype chain holds under that
    name.  The chain is [Object.prototype], preceded by the position assigned
    under ["__proto__"] when there is one, whose own properties are [x] and
    [y]. *)
Definition read (positions : gmap string point) (key : string) : member :=
  match positions !! key with
  | Some p => Position p
  | None =>
      if bool_decide (key ∈ Object_prototype) then Builtin
      else
        match positions !! "__proto__" with
        | Some p =>
            if bool_decide (key = "x") then Coordinate (x p)
            else if bool_decide (key = "y") then Coordinate (y p)
            else Undefined
        | None => Undefined
        end
  end.

(** An id that names nothing on the prototype chain of a position object. *)
Definition ordinary (key : string) : Prop :=
  (key ∉ Object_prototype) ∧ key ≠ "x" ∧ key ≠ "y".

(** Truthiness: objects and functions are truthy, a number unless it is
    zero, [undefined] is not. *)
Definition member_truthy (m : member) : bool :=
  match m with
  | Position _ | Builtin => true
  | Coordinate v => if Req_dec_T v 0 then false else true
  | Undefined => false
  end.

(** [m.x] and [m.y]: a stored position has them; a function, the prototype
    object and a number answer [undefined] ([None]); on [undefined] itself
    the access throws. *)
Definition member_prop (m : member) (f : point → R) : completion (option R) :=
  match m with
  | Position p => Normal (Some (f p))
  | Builtin | Coordinate _ => Normal None
  | Undefined => Throw (TypeError "Cannot read properties of undefined")
  end.

(** A [<g>] whose end points are not both stored positions: the coordinates
    read from the other end are [undefined] ([None] here), and the control
    point and the text anchor, computed from them, are [NaN]. *)
Record Malformed := {
  bad_from : option point;
  bad_to : option point;
  bad_gradient_from : string;
  bad_gradient_to : string;
  bad_animated : bool;
  bad_label : option string
}.

(** The [<g>] element returned for a connection. *)
Inductive element :=
  | Curve (g : Connector)
  | NotANumber (m : Malformed).

Definition end_point (px py : option R) : option point :=
  match px, py with
  | Some a, Some b => Some {| x := a; y := b |}
  | _, _ => None
  end.

(** The callback of [connections.map]; [None] is the [null] it returns for a
    connection that cannot be drawn. *)
Definition renderConnection (positions : gmap string point) (agents : list Agent)
    (activeAgent : option string) (connection : AgentHandover) (index : nat)
    : completion (option element) :=
  let fromPos := read positions (from connection) in
  let toPos := read positions (to connection) in
  if negb (member_truthy fromPos) || negb (member_truthy toPos) then Normal None
  else
    let? fromPos_x := member_prop fromPos x in
    let? fromPos_y := member_prop fromPos y in
    let? toPos_x := member_prop toPos x in
    let? toPos_y := member_prop toPos y in
    let fromAgent := find (λ a, bool_decide (id a = from connection)) agents in
    let toAgent := find (λ a, bool_decide (id a = to connection)) agents in
    match fromPos_x, fromPos_y, toPos_x, toPos_y with
    | Some fromX, Some fromY, Some toX, Some toY =>
        let midX := (fromX + toX) / 2 in
        let midY := (fromY + toY) / 2 in
        let dx := toX - fromX in
        let dy := toY - fromY in
        let normalX := - dy * 0.3 in
        let normalY := dx * 0.3 in
        let controlX := midX + normalX in
        let controlY := midY + normalY in
        let textX := midX + normalX * 0.7 in
        let textY := midY + normalY * 0.7 in
        Normal (Some (Curve
          {| path_from := {| x := fromX; y := fromY |};
             path_control := {| x := controlX; y := controlY |};
             path_to := {| x := toX; y := toY |};
             gradient_from := or_string (color <$> fromAgent) "#3b82f6";
             gradient_to := or_string (color <$> toAgent) "#ef4444";
             animated := bool_decide (Some (from connection) = activeAgent);
             label :=
               match handover_message connection with
               | Some text =>
                   if bool_decide (text = "") then None
                   else Some (text, {| x := textX; y := textY |})
               | None => None
               end |}))
    | _, _, _, _ =>
        (* arithmetic on [undefined] gives [NaN] throughout *)
        Normal (Some (NotANumber
          {| bad_from := end_point fromPos_x fromPos_y;
             bad_to := end_point toPos_x toPos_y;
             bad_gradient_from := or_string (color <$> fromAgent) "#3b82f6";
             bad_gradient_to := or_string (color <$> toAgent) "#ef4444";
             bad_animated := bool_decide (Some (from connection) = activeAgent);
             bad_label :=
               match handover_message connection with
               | Some text => if bool_decide (text = "") then None else Some text
               | None => None
               end |}))
    end.

(** [renderConnections] with the position map made explicit. *)
Definition renderConnectionsAt (positions : gmap string point)
    (agents : list Agent) (activeAgent : option string)
    (connections : list AgentHandover) : completion (list (option element)) :=
  array_map (renderConnection positions agents activeAgent) connections.

Definition renderConnections (svgRef : option SVGElement) (agents : list Agent)
    (activeAgent : option string) (connections : list AgentHandover)
    : completion (list (option element)) :=
  let positions := calculatePositions svgRef agents in
  renderConnectionsAt positions agents activeAgent connections.

(** The elements actually handed to the DOM: React skips [null] children. *)
Definition drawn (out : list (option element)) : list element :=
  omap (λ c, c) out.

(** The animation [renderAgents] picks from the status. *)
Inductive Pulse := PulseThinking | PulseSpeaking | PulseListening | PulseNone.

(** What one rendered [<g>] of an agent carries. *)
Record AgentNode := {
  node_key : string;
  glow : bool;
  centre : point;
  fill : string;
  opacity : R;
  pulse : Pulse;
  node_name : string;
  node_role : string;
  role_anchor : point;
  indicator_centre : point;
  indicator_fill : string
}.

(** The callback of [agents.map] in [renderAgents].  [positions] is the
    object computed from the list the agent belongs to, so the lookup is at
    an id something was stored under and yields what was stored. *)
Definition renderAgent (positions : gmap string point)
    (activeAgent : option string) (agent : Agent) (index : nat)
    : completion (option AgentNode) :=
  let pos := positions !! id agent in
  if negb (truthy pos) then Normal None
  else
    let pulseAnimation :=
      match status agent with
      | THINKING => PulseThinking
      | SPEAKING => PulseSpeaking
      | LISTENING => PulseListening
      | IDLE => PulseNone
      end in
    let isActive := bool_decide (Some (id agent) = activeAgent) in
    let? posX := prop pos x in
    let? posY := prop pos y in
    Normal (Some
      {| node_key := id agent;
         glow := isActive;
         centre := {| x := posX; y := posY |};
         fill := color agent;
         opacity := if isActive then 1 else 0.7;
         pulse := pulseAnimation;
         node_name := name agent;
         node_role := role agent;
         role_anchor := {| x := posX; y := posY + 15 |};
         indicator_centre := {| x := posX + 25; y := posY - 15 |};
         indicator_fill :=
           match status agent with
           | IDLE => "#9ca3af"
           | THINKING => "#3b82f6"
           | SPEAKING => "#22c55e"
           | LISTENING => "#f59e0b"
           end |}).

Definition renderAgents (svgRef : option SVGElement) (agents : list Agent)
    (activeAgent : option string) : completion (list (option AgentNode)) :=
  let positions := calculatePositions svgRef agents in
  array_map (renderAgent positions activeAgent) agents.

(** Squared distance, and the midpoint of a connector's end points. *)
Definition dist2 (p q : point) : R :=
  (x p - x q) * (x p - x q) + (y p - y q) * (y p - y q).

Definition midpoint (p q : point) : point :=
  {| x := (x p + x q) / 2; y := (y p + y q) / 2 |}.

(** The position the specification assigns to index [i] of [N] agents in a
    [W] by [H] viewport. *)
Definition on_circle (W H : R) (N i : nat) : point :=
  let theta := (INR i / INR N) * (2 * PI) in
  let r := 0.35 * Rmin W H in
  {| x := W / 2 + r * cos theta; y := H / 2 + r * sin theta |}.

End Layout.

(* ===================================================================== *)
(** * Event Channel (services/socket.ts, class SocketService) *)
(* ===================================================================== *)

Module Channel.
Import JS.
Local Open Scope js_scope.

Record ExecutionStatus := {
  exec_id : string;
  exec_status : string;
  exec_timestamp : Z;
  exec_error : option string
}.

(** The [data: any] handed to listeners. *)
Inductive payload :=
  | PNull
  | PReason (reason : string)
  | PError (err : string)
  | PAgent (a : Agent)
  | PMessage (m : AgentMessage)
  | PHandover (h : AgentHandover)
  | PExecution (e : ExecutionStatus).

(** [String(data)], as a template literal converts the value. *)
Definition String_of (data : payload) : string :=
  match data with
  | PNull => "null"
  | PReason reason => reason
  | PError err => "Error: " +:+ err
  | PAgent _ | PMessage _ | PHandover _ | PExecution _ => "[object Object]"
  end.

(** The handle returned by [io(url, options)]. *)
Record Socket := {
  sock_url : string;
  reconnection : bool;
  reconnectionAttempts : nat;
  reconnectionDelay : Z;
  reconnectionDelayMax : Z;
  timeout : Z
}.

(** Calls made on the transport library and the timer queue. *)
Inductive effect :=
  | IoOpen (s : Socket)
  | SocketDisconnect
  | SocketConnect
  | SocketEmit (event : string) (data : payload)
  | SetTimeout (delay : Q).

Section WithSubscribers.

(** State owned by the subscribers; their callbacks act on it and on nothing
    else. *)
Context {App : Type}.

(** A registered function: [ref] stands for its identity as an object, which
    is what [Set] membership compares. *)
Record callback := {
  ref : nat;
  body : payload → M App unit
}.

Record SocketService := {
  socket : option Socket;
  reconnectAttempts : nat;
  maxReconnectAttempts : nat;
  reconnectDelay : Z;
  listeners : gmap string (list callback);
  connected : bool;
  url : string
}.

(** [new SocketService(url)] *)
Definition new_SocketService (url : string) : SocketService :=
  {| socket := None; reconnectAttempts := 0; maxReconnectAttempts := 5;
     reconnectDelay := 2000%Z; listeners := ∅; connected := false; url := url |}.

Record world := {
  service : SocketService;
  app : App;
  console : list log_entry;
  transport : list effect;
  (** every callback invocation, as (event name, callback) in call order *)
  calls : list (string * nat)
}.

Definition set_service (f : SocketService → SocketService) : M world unit :=
  modify (λ w, {| service := f (service w); app := app w;
                  console := console w; transport := transport w;
                  calls := calls w |}).

Definition print (entry : log_entry) : M world unit :=
  modify (λ w, {| service := service w; app := app w;
                  console := console w ++ [entry]; transport := transport w;
                  calls := calls w |}).

Definition perform (e : effect) : M world unit :=
  modify (λ w, {| service := service w; app := app w;
                  console := console w; transport := transport w ++ [e];
                  calls := calls w |}).

Definition set_socket (s : option Socket) (svc : SocketService) : SocketService :=
  {| socket := s; reconnectAttempts := reconnectAttempts svc;
     maxReconnectAttempts := maxReconnectAttempts svc;
     reconnectDelay := reconnectDelay svc; listeners := listeners svc;
     connected := connected svc; url := url svc |}.

Definition set_connected (b : bool) (svc : SocketService) : SocketService :=
  {| socket := socket svc; reconnectAttempts := reconnectAttempts svc;
     maxReconnectAttempts := maxReconnectAttempts svc;
     reconnectDelay := reconnectDelay svc; listeners := listeners svc;
     connected := b; url := url svc |}.

Definition set_reconnectAttempts (n : nat) (svc : SocketService) : SocketService :=
  {| socket := socket svc; reconnectAttempts := n;
     maxReconnectAttempts := maxReconnectAttempts svc;
     reconnectDelay := reconnectDelay svc; listeners := listeners svc;
     connected := connected svc; url := url svc |}.

Definition set_listeners (l : gmap string (list callback)) (svc : SocketService)
    : SocketService :=
  {| socket := socket svc; reconnectAttempts := reconnectAttempts svc;
     maxReconnectAttempts := maxReconnectAttempts svc;
     reconnectDelay := reconnectDelay svc; listeners := l;
     connected := connected svc; url := url svc |}.

(** [Set.prototype.add] and [Set.prototype.delete], insertion order kept. *)
Definition Set_add (cb : callback) (s : list callback) : list callback :=
  if existsb (λ c, bool_decide (ref c = ref cb)) s then s else s ++ [cb].

Definition Set_delete (cb : callback) (s : list callback) : list callback :=
  filter (λ c, ref c ≠ ref cb) s.

(** [callback(data)]: the call is recorded, then the body runs on the
    subscribers' state. *)
Definition call (event : SocketEvent) (cb : callback) (data : payload)
    : M world unit :=
  λ w,
    let w1 := {| service := service w; app := app w; console := console w;
                 transport := transport w;
                 calls := calls w ++ [(event_name event, ref cb)] |} in
    let '(c, a) := body cb data (app w1) in
    (c, {| service := service w1; app := a; console := console w1;
           transport := transport w1; calls := calls w1 |}).

Definition notifyListeners (event : SocketEvent) (data : payload) : M world unit :=
  let! w := get in
  match listeners (service w) !! event_name event with
  | Some callbacks =>
      forEach callbacks (λ callback,
        try_catch
          (call event callback data)
          (λ error,
             print (Error ("Error in " ++ event_name event ++ " listener:")
                          (Some error))))
  | None => ret tt
  end.

Definition on (event : SocketEvent) (cb : callback) : M world unit :=
  do! (let! w := get in
       match listeners (service w) !! event_name event with
       | Some _ => ret tt
       | None =>
           set_service (λ svc,
             set_listeners (<[event_name event := []]> (listeners svc)) svc)
       end) in
  set_service (λ svc,
    set_listeners (alter (Set_add cb) (event_name event) (listeners svc)) svc).

Definition off (event : SocketEvent) (cb : callback) : M world unit :=
  let! w := get in
  match listeners (service w) !! event_name event with
  | Some _ =>
      set_service (λ svc,
        set_listeners
          (alter (Set_delete cb) (event_name event) (listeners svc)) svc)
  | None => ret tt
  end.

Definition disconnect : M world unit :=
  let! w := get in
  match socket (service w) with
  | Some _ =>
      do! perform SocketDisconnect in
      do! set_service (set_socket None) in
      set_service (set_connected false)
  | None => ret tt
  end.

Definition connect : M world unit :=
  let! w := get in
  match socket (service w) with
  | Some _ => ret tt
  | None =>
      let svc := service w in
      let s := {| sock_url := url svc;
                  reconnection := true;
                  reconnectionAttempts := maxReconnectAttempts svc;
                  reconnectionDelay := reconnectDelay svc;
                  reconnectionDelayMax := 10000%Z;
                  timeout := 20000%Z |} in
      do! perform (IoOpen s) in
      set_service (set_socket (Some s))
  end.

(** [reconnect]: arms one timer with the backed-off delay. *)
Definition reconnect : M world unit :=
  let! w := get in
  let svc := service w in
  if negb (bool_decide (is_Some (socket svc))) || connected svc then ret tt
  else
    perform (SetTimeout (inject_Z (reconnectDelay svc)
                         * Qpower (3 # 2) (Z.of_nat (reconnectAttempts svc)))).

(** The timer armed by [reconnect] fires. *)
Definition reconnect_timer : M world unit :=
  let! w := get in
  do! print (Log ("Attempting to reconnect ("
                  +:+ pretty (reconnectAttempts (service w) + 1)%nat
                  +:+ "/" +:+ pretty (maxReconnectAttempts (service w))
                  +:+ ")")) in
  match socket (service w) with
  | Some _ => perform SocketConnect
  | None => ret tt
  end.

Definition emit (event : string) (data : payload) : M world unit :=
  let! w := get in
  if bool_decide (is_Some (socket (service w))) && connected (service w)
  then perform (SocketEmit event data)
  else print (Warn "Socket not connected, cannot emit event:").

Definition isConnected : M world bool :=
  let! w := get in ret (connected (service w)).

(** The handlers that [connect] installs on the socket with [socket.on]. *)
Definition on_connect : M world unit :=
  do! print (Log "Socket connected") in
  do! set_service (set_connected true) in
  do! set_service (set_reconnectAttempts 0) in
  notifyListeners CONNECT PNull.

Definition on_disconnect (reason : payload) : M world unit :=
  do! print (Log ("Socket disconnected: " +:+ String_of reason)) in
  do! set_service (set_connected false) in
  do! notifyListeners DISCONNECT reason in
  match reason with
  | PReason "io server disconnect" => reconnect
  | _ => ret tt
  end.

Definition on_connect_error (error : payload) : M world unit :=
  do! print (Error "Socket connection error:" None) in
  do! notifyListeners CONNECT_ERROR error in
  do! set_service (λ svc, set_reconnectAttempts (reconnectAttempts svc + 1) svc) in
  let! w := get in
  if (maxReconnectAttempts (service w) <? reconnectAttempts (service w))%nat then
    do! print (Error "Max reconnection attempts reached" None) in
    disconnect
  else ret tt.

(** The transport raises [event] on the socket. *)
Definition socket_handler (event : SocketEvent) (data : payload) : M world unit :=
  match event with
  | CONNECT => on_connect
  | DISCONNECT => on_disconnect data
  | CONNECT_ERROR => on_connect_error data
  | _ => notifyListeners event data
  end.

(** [n] connect-error events in a row. *)
Fixpoint connect_errors (n : nat) (error : payload) : M world unit :=
  match n with
  | 0 => ret tt
  | S n' => do! on_connect_error error in connect_errors n' error
  end.

Inductive ConnectionState := Disconnected | Connecting | Connected.

Definition connection_state (svc : SocketService) : ConnectionState :=
  match socket svc with
  | None => Disconnected
  | Some _ => if connected svc then Connected else Connecting
  end.

(** How often [cb] has been called for [event]. *)
Definition times_called (event : SocketEvent) (cb : callback) (w : world) : nat :=
  length (filter (λ c, c = (event_name event, ref cb)) (calls w)).

(** Delivery as the specification words it: every handler of the list is
    called in turn, whatever the earlier ones did; a handler that throws
    costs one console entry and nothing else. *)
Fixpoint deliver_all (event : SocketEvent) (data : payload)
    (callbacks : list callback) (w : world) : world :=
  match callbacks with
  | [] => w
  | cb :: rest =>
      let w1 := {| service := service w; app := app w; console := console w;
                   transport := transport w;
                   calls := calls w ++ [(event_name event, ref cb)] |} in
      let w2 :=
        match body cb data (app w1) with
        | (Normal _, a) =>
            {| service := service w1; app := a; console := console w1;
               transport := transport w1; calls := calls w1 |}
        | (Throw e, a) =>
            {| service := service w1; app := a;
               console := console w1 ++
                 [Error ("Error in " ++ event_name event ++ " listener:") (Some e)];
               transport := transport w1; calls := calls w1 |}
        end in
      deliver_all event data rest w2
  end.

Definition registered (event : SocketEvent) (svc : SocketService)
    : list callback :=
  default [] (listeners svc !! event_name event).

(** What the handlers of a list leave of the subscribers' state, each run
    in turn on what the previous one left, thrown or not. *)
Definition after_bodies (data : payload) (callbacks : list callback) (a : App)
    : App :=
  foldl (λ a cb, (body cb data a).2) a callbacks.

(** The payload the socket handler of [event] passes on to the listeners:
    the connect handler passes [null], every other one its argument. *)
Definition forwarded (event : SocketEvent) (data : payload) : payload :=
  match event with
  | CONNECT => PNull
  | _ => data
  end.

(** A run of transport events, in the order the socket raises them. *)
Definition receive (events : list (SocketEvent * payload)) : M world unit :=
  forEach events (λ '(event, data), socket_handler event data).

(** The delay of the timer armed after [attempts] failed attempts. *)
Definition backoff (svc : SocketService) : Q :=
  inject_Z (reconnectDelay svc) * Qpower (3 # 2) (Z.of_nat (reconnectAttempts svc)).

End WithSubscribers.

Arguments callback : clear implicits.
Arguments SocketService : clear implicits.
Arguments world : clear implicits.

End Channel.

(* ===================================================================== *)
(** * AgentNetwork on the Event Channel (src/unnamed/part_001, first effect) *)
(* ===================================================================== *)

Module Network.
Import JS Projector Channel.
Local Open Scope js_scope.

(** The component's side of the world: its snapshot and the console. *)
Definition console_log (text : string) : M Bootstrap.world unit :=
  modify (λ c, {| Bootstrap.snap := Bootstrap.snap c;
                  Bootstrap.console := Bootstrap.console c ++ [Log text] |}).

(** The six listeners one run of the effect creates.  Each closure is a new
    object; [r] is the first of the identities they receive.  A listener
    declared for a payload type acts on payloads of that type; the typed
    channel hands it no other. *)
Definition onConnect (r : nat) : callback Bootstrap.world :=
  {| ref := r;
     body := λ _, do! console_log "Socket connected" in
                  Bootstrap.update (setIsConnected true) |}.

Definition onDisconnect (r : nat) : callback Bootstrap.world :=
  {| ref := r + 1;
     body := λ _, do! console_log "Socket disconnected" in
                  Bootstrap.update (setIsConnected false) |}.

Definition onAgentUpdate (r : nat) : callback Bootstrap.world :=
  {| ref := r + 2;
     body := λ data,
       match data with
       | PAgent data => Bootstrap.update (setAgents (upsert data))
       | _ => ret tt
       end |}.

Definition onAgentMessage (r : nat) : callback Bootstrap.world :=
  {| ref := r + 3;
     body := λ data,
       match data with
       | PMessage data =>
           do! Bootstrap.update (setMessages (λ prev, prev ++ [data])) in
           Bootstrap.update (setActiveAgent (Some (agent_id data)))
       | _ => ret tt
       end |}.

Definition onAgentThinking (r : nat) : callback Bootstrap.world :=
  {| ref := r + 4;
     body := λ data,
       match data with
       | PMessage data =>
           do! Bootstrap.update (setMessages (λ prev, prev ++ [data])) in
           Bootstrap.update (setActiveAgent (Some (agent_id data)))
       | _ => ret tt
       end |}.

Definition onAgentHandover (r : nat) : callback Bootstrap.world :=
  {| ref := r + 5;
     body := λ data,
       match data with
       | PHandover data =>
           do! Bootstrap.update (setConnections (λ prev, prev ++ [data])) in
           Bootstrap.update (setActiveAgent (Some (to data)))
       | _ => ret tt
       end |}.

(** The effect body: connect, then subscribe. *)
Definition mount (r : nat) : M (world Bootstrap.world) unit :=
  do! connect in
  do! on CONNECT (onConnect r) in
  do! on DISCONNECT (onDisconnect r) in
  do! on AGENT_UPDATE (onAgentUpdate r) in
  do! on AGENT_MESSAGE (onAgentMessage r) in
  do! on AGENT_THINKING (onAgentThinking r) in
  on AGENT_HANDOVER (onAgentHandover r).

(** The arrow function [() => {}] written afresh in each [off] call of the
    clean-up. *)
Definition empty_arrow (k : nat) : callback Bootstrap.world :=
  {| ref := k; body := λ _, ret tt |}.

(** The clean-up the effect returns; its six arrow functions take the
    identities after those of the listeners. *)
Definition unmount (r : nat) : M (world Bootstrap.world) unit :=
  do! off CONNECT (empty_arrow (r + 6)) in
  do! off DISCONNECT (empty_arrow (r + 7)) in
  do! off AGENT_UPDATE (empty_arrow (r + 8)) in
  do! off AGENT_MESSAGE (empty_arrow (r + 9)) in
  do! off AGENT_THINKING (empty_arrow (r + 10)) in
  do! off AGENT_HANDOVER (empty_arrow (r + 11)) in
  disconnect.

(** The listeners of the component, per event kind. *)
Definition component_listeners (r : nat) (event : SocketEvent)
    : list (callback Bootstrap.world) :=
  match event with
  | CONNECT => [onConnect r]
  | DISCONNECT => [onDisconnect r]
  | AGENT_UPDATE => [onAgentUpdate r]
  | AGENT_MESSAGE => [onAgentMessage r]
  | AGENT_THINKING => [onAgentThinking r]
  | AGENT_HANDOVER => [onAgentHandover r]
  | _ => []
  end.

(** The service carries the component's listeners and no others. *)
Definition mounted (r : nat) (svc : SocketService Bootstrap.world) : Prop :=
  ∀ event, registered event svc = component_listeners r event.

(** The projector event a well-typed transport event amounts to. *)
Definition live_of (ev : SocketEvent * payload) : option live_event :=
  match ev with
  | (CONNECT, _) => Some EvConnect
  | (DISCONNECT, _) => Some EvDisconnect
  | (AGENT_UPDATE, PAgent a) => Some (EvAgentUpdate a)
  | (AGENT_MESSAGE, PMessage m) => Some (EvAgentMessage m)
  | (AGENT_THINKING, PMessage m) => Some (EvAgentThinking m)
  | (AGENT_HANDOVER, PHandover h) => Some (EvAgentHandover h)
  | _ => None
  end.

(** A step of the component's own code, run on the channel's world. *)
Definition in_component {A} (c : M Bootstrap.world A)
    : M (world Bootstrap.world) A :=
  λ w, let (r, a) := c (app w) in
       (r, {| service := service w; app := a; console := console w;
              transport := transport w; calls := calls w |}).

(** The transport events raised while each of the three requests of the
    bootstrap is pending. *)
Record traffic := {
  while_agents : list (SocketEvent * payload);
  while_messages : list (SocketEvent * payload);
  while_handovers : list (SocketEvent * payload)
}.

(** [await] in the mounted component: the socket handlers run on the events
    raised meanwhile, then the promise settles. *)
Definition await {A} (pending : list (SocketEvent * payload))
    (r : Bootstrap.fetched A) : M (world Bootstrap.world) (option A) :=
  do! receive pending in
  match r with
  | Bootstrap.Rejected reason => throw (NetworkError reason)
  | Bootstrap.Resolved field => ret field
  end.

(** [fetchData] of the second effect, run while the channel is live: the
    same statements as [Bootstrap.fetchData], with the events of each wait
    given as they come from the transport. *)
Definition fetchData (srv : Bootstrap.server) (t : traffic)
    : M (world Bootstrap.world) unit :=
  try_catch
    (let! agentsData_agents := await (while_agents t) (Bootstrap.api_agents srv) in
     do! match agentsData_agents with
         | Some o =>
             in_component
               (Bootstrap.update (setAgents (λ _, Bootstrap.Object_values o)))
         | None => ret tt
         end in
     let! messagesData_messages :=
       await (while_messages t) (Bootstrap.api_messages srv) in
     do! match messagesData_messages with
         | Some ms => in_component (Bootstrap.update (setMessages (λ _, ms)))
         | None => ret tt
         end in
     let! handoversData_handovers :=
       await (while_handovers t) (Bootstrap.api_handovers srv) in
     match handoversData_handovers with
     | Some hs => in_component (Bootstrap.update (setConnections (λ _, hs)))
     | None => ret tt
     end)
    (λ error,
       in_component
         (Bootstrap.console_error "Error fetching initial data:" error)).

(** One life of the component on a channel that connects once: the first
    effect subscribes; events are raised before the transport connects; the
    connect event turns [isConnected] from false to true, on which React
    runs the second effect and with it [fetchData]; events are raised during
    its three waits and after it has completed. *)
Definition session (r : nat) (srv : Bootstrap.server)
    (before : list (SocketEvent * payload)) (t : traffic)
    (after : list (SocketEvent * payload)) : M (world Bootstrap.world) unit :=
  do! mount r in
  do! receive before in
  do! socket_handler CONNECT PNull in
  do! fetchData srv t in
  receive after.



(** The socket events the traffic of a bootstrap amounts to. *)
Definition schedule_of (t : traffic) : Bootstrap.schedule :=
  {| Bootstrap.during_agents := omap live_of (while_agents t);
     Bootstrap.during_messages := omap live_of (while_messages t);
     Bootstrap.during_handovers := omap live_of (while_handovers t) |}.

(** The event is not the connect event. *)
Definition no_connect (ev : SocketEvent * payload) : bool :=
  match ev with
  | (CONNECT, _) => false
  | _ => true
  end.

(** The identities below [r] are the only ones the registered listeners
    use: [r] and what follows are free for new function objects. *)
Definition refs_below (r : nat) (svc : SocketService Bootstrap.world) : Prop :=
  ∀ event cb, cb ∈ registered event svc → (ref cb < r)%nat.

(** The payload has the type the channel declares for the event. *)
Definition well_typed (ev : SocketEvent * payload) : bool :=
  match ev with
  | (CONNECT, _) => true
  | (DISCONNECT, PReason _) => true
  | (CONNECT_ERROR, PError _) => true
  | (AGENT_UPDATE, PAgent _) => true
  | (AGENT_MESSAGE, PMessage _) => true
  | (AGENT_THINKING, PMessage _) => true
  | (AGENT_HANDOVER, PHandover _) => true
  | (EXECUTION_STARTED, PExecution _) => true
  | (EXECUTION_COMPLETED, PExecution _) => true
  | (EXECUTION_ERROR, PExecution _) => true
  | (SYSTEM_MESSAGE, PMessage _) => true
  | _ => false
  end.

End Network.

(* ===================================================================== *)
(** * Concrete data used by the scenarios *)
(* ===================================================================== *)

Module Scenario.

Definition agent (i : string) (n : string) : Agent :=
  {| id := i; name := n; role := "engineer"; status := IDLE;
     color := "#3b82f6"; llm_type := None; last_updated := None |}.

Definition agentA : Agent := agent "A" "Alice".
Definition agentB : Agent := agent "B" "Bob".
Definition agentC : Agent := agent "C" "Carol".
Definition agentX : Agent := agent "X" "Xavier".

Definition hello : AgentMessage :=
  {| msg_id := "m1"; agent_id := "A"; content := "hello";
     msg_timestamp := 1; type := message |}.

Definition handoverAB : AgentHandover :=
  {| from := "A"; to := "B"; handover_message := None; timestamp := 2 |}.

(** A session in which agent X arrived over the socket before the bootstrap. *)
Definition live_session : Projector.snapshot :=
  Projector.run [Projector.EvConnect; Projector.EvAgentUpdate agentX]
    Projector.initial.

Definition before_bootstrap : Bootstrap.world :=
  {| Bootstrap.snap := live_session; Bootstrap.console := [] |}.

(** All three queries answer. *)
Definition healthy_server : Bootstrap.server :=
  {| Bootstrap.api_agents := Bootstrap.Resolved (Some [("A", agentA)]);
     Bootstrap.api_messages := Bootstrap.Resolved (Some [hello]);
     Bootstrap.api_handovers := Bootstrap.Resolved (Some [handoverAB]) |}.


(** The agents query is answered with status 500 and a JSON error body that
    has no [agents] field; the other two queries answer in full. *)
Definition erroring_server : Bootstrap.server :=
  Bootstrap.served
    (Bootstrap.Response 500 (Bootstrap.Json None))
    (Bootstrap.Response 200 (Bootstrap.Json (Some [hello])))
    (Bootstrap.Response 200 (Bootstrap.Json (Some [handoverAB]))).


(** A mounted [<svg>] of 600 by 400 pixels, and one collapsed to width 0. *)
Definition svg_600_400 : Layout.SVGElement :=
  {| Layout.clientWidth := 600; Layout.clientHeight := 400 |}.

Definition svg_0_400 : Layout.SVGElement :=
  {| Layout.clientWidth := 0; Layout.clientHeight := 400 |}.

(** A second record carrying the id of agent A. *)
Definition agentA_again : Agent := agent "A" "Alice again".

Definition handoverAZ : AgentHandover :=
  {| from := "A"; to := "Z"; handover_message := Some "over to you";
     timestamp := 3 |}.

(** A handover whose sender id names a member every object inherits. *)
Definition handover_from_constructor : AgentHandover :=
  {| from := "constructor"; to := "A"; handover_message := None;
     timestamp := 4 |}.

(** Two subscribers acting on a counter: one counts the events it is
    given, the other always throws. *)
Definition counting : Channel.callback nat :=
  {| Channel.ref := 1; Channel.body := λ _, JS.modify S |}.

Definition faulty : Channel.callback nat :=
  {| Channel.ref := 2;
     Channel.body := λ _, JS.throw (JS.UserError "handler failed") |}.

Definition fresh_channel : Channel.world nat :=
  {| Channel.service := Channel.new_SocketService "http://localhost:12001";
     Channel.app := 0; Channel.console := []; Channel.transport := [];
     Channel.calls := [] |}.

(** [faulty] subscribes first, [counting] second, then [connect()]. *)
Definition connecting_channel : Channel.world nat :=
  (JS.bind (Channel.on CONNECT_ERROR faulty) (λ _,
   JS.bind (Channel.on CONNECT_ERROR counting) (λ _,
   Channel.connect)) fresh_channel).2.

Definition timed_out : Channel.payload := Channel.PError "timeout".

(** A fresh service for the AgentNetwork component. *)
Definition fresh_network : Channel.world Bootstrap.world :=
  {| Channel.service := Channel.new_SocketService "http://localhost:12001";
     Channel.app := {| Bootstrap.snap := Projector.initial;
                       Bootstrap.console := [] |};
     Channel.console := []; Channel.transport := []; Channel.calls := [] |}.

(** Agent B reports in over the transport while the messages query is
    pending. *)
Definition traffic_in_flight : Network.traffic :=
  {| Network.while_agents := [];
     Network.while_messages := [(AGENT_UPDATE, Channel.PAgent agentB)];
     Network.while_handovers := [] |}.

(** The same channel after six connect-errors in a row. *)
Definition exhausted_channel : Channel.world nat :=
  (Channel.connect_errors 6 timed_out connecting_channel).2.

End Scenario.

(* ===================================================================== *)
(** * State Projector: upsert, append-only logs, active pointer *)
(* ===================================================================== *)

Section ProjectorFacts.
Import Projector.

Lemma upsert_nil (d : Agent) : upsert d [] = [d].
Proof. reflexivity. Qed.

(** The structural equation hidden behind [findIndex] and the indexed store. *)
Lemma upsert_cons (d a : Agent) (l : list Agent) :
  upsert d (a :: l) =
  if bool_decide (id a = id d) then d :: l else a :: upsert d l.
Proof.
  unfold upsert. cbn [findIndex].
  destruct (bool_decide (id a = id d)); [reflexivity|].
  set (r := findIndex _ l).
  destruct (Z.ltb_spec r 0) as [Hneg|Hpos].
  - assert ((0 <=? r)%Z = false) as -> by lia. reflexivity.
  - assert ((0 <=? r + 1)%Z = true) as -> by lia.
    assert ((0 <=? r)%Z = true) as -> by lia.
    replace (Z.to_nat (r + 1)) with (S (Z.to_nat r)) by lia.
    reflexivity.
Qed.

Lemma by_id_upsert (i : string) (d : Agent) (l : list Agent) :
  by_id i (upsert d l) = if decide (id d = i) then Some d else by_id i l.
Proof.
  induction l as [|a l IH].
  - rewrite upsert_nil. unfold by_id. cbn. destruct (decide (id d = i)).
    + by rewrite bool_decide_eq_true_2.
    + by rewrite bool_decide_eq_false_2.
  - rewrite upsert_cons. destruct (bool_decide_reflect (id a = id d)) as [E|E].
    + unfold by_id. cbn. rewrite E. destruct (decide (id d = i)).
      * by rewrite bool_decide_eq_true_2.
      * by rewrite bool_decide_eq_false_2.
    + unfold by_id in *. cbn. destruct (bool_decide_reflect (id a = i)) as [Ei|Ei].
      * destruct (decide (id d = i)); [congruence | done].
      * apply IH.
Qed.

Lemma ids_upsert (d : Agent) (l : list Agent) :
  id <$> upsert d l =
  if decide (id d ∈ id <$> l) then id <$> l else (id <$> l) ++ [id d].
Proof.
  induction l as [|a l IH].
  - rewrite upsert_nil. cbn. destruct (decide _) as [H|H]; [|done].
    by apply elem_of_nil in H.
  - rewrite upsert_cons. destruct (bool_decide_reflect (id a = id d)) as [E|E].
    + cbn. rewrite decide_True by (rewrite E; left). by rewrite E.
    + cbn. rewrite IH. destruct (decide (id d ∈ id <$> l)) as [H|H].
      * by rewrite decide_True by (by right).
      * rewrite decide_False; [done|].
        intros [?|?]%elem_of_cons; congruence.
Qed.

Lemma NoDup_ids_upsert (d : Agent) (l : list Agent) :
  NoDup (id <$> l) → NoDup (id <$> upsert d l).
Proof.
  intros H. rewrite ids_upsert. destruct (decide _) as [Hin|Hin]; [done|].
  apply NoDup_app. split_and!; [done| |apply NoDup_singleton].
  intros i Hi ->%list_elem_of_singleton. done.
Qed.

Lemma by_id_unique (a : Agent) (l : list Agent) :
  NoDup (id <$> l) → a ∈ l ↔ by_id (id a) l = Some a.
Proof.
  induction l as [|b l IH]; intros Hnd.
  - unfold by_id. cbn. split; [by intros ?%elem_of_nil | done].
  - apply NoDup_cons in Hnd as [Hb Hnd]. unfold by_id in *. cbn.
    destruct (bool_decide_reflect (id b = id a)) as [E|E].
    + split.
      * intros [->|Hin]%elem_of_cons; [done|].
        exfalso. apply Hb. rewrite E. by apply list_elem_of_fmap_2.
      * intros [= ->]. left.
    + rewrite <- IH by done. split.
      * intros [->|Hin]%elem_of_cons; [done | done].
      * by right.
Qed.

Lemma by_id_Some (i : string) (a : Agent) (l : list Agent) :
  by_id i l = Some a → id a = i ∧ a ∈ l.
Proof.
  unfold by_id. intros H. apply find_some in H as [Hin Hp].
  apply bool_decide_eq_true in Hp. split; [done|]. by apply list_elem_of_In.
Qed.

Lemma last_update_snoc (i : string) (ups : list Agent) (d : Agent) :
  last_update i (ups ++ [d]) =
  if decide (id d = i) then Some d else last_update i ups.
Proof.
  unfold last_update. rewrite filter_app.
  destruct (decide (id d = i)) as [E|E].
  - rewrite filter_cons_True by done. rewrite filter_nil. apply last_snoc.
  - rewrite filter_cons_False by done. rewrite filter_nil.
    by rewrite app_nil_r.
Qed.

Lemma run_app (evs1 evs2 : list live_event) (s : snapshot) :
  run (evs1 ++ evs2) s = run evs2 (run evs1 s).
Proof. unfold run. apply foldl_app. Qed.

Lemma agents_run (evs : list live_event) (s : snapshot) :
  agents (run evs s) = foldl (λ l d, upsert d l) (agents s) (updates_of evs).
Proof.
  revert s. induction evs as [|e evs IH]; intros s; [done|].
  change (run (e :: evs) s) with (run evs (handle e s)).
  rewrite IH. by destruct e.
Qed.

Lemma messages_run (evs : list live_event) (s : snapshot) :
  messages (run evs s) = messages s ++ messages_of evs.
Proof.
  revert s. induction evs as [|e evs IH]; intros s.
  - cbn. by rewrite app_nil_r.
  - change (run (e :: evs) s) with (run evs (handle e s)).
    rewrite IH. destruct e; cbn; try done; by rewrite <- app_assoc.
Qed.

Lemma connections_run (evs : list live_event) (s : snapshot) :
  connections (run evs s) = connections s ++ handovers_of evs.
Proof.
  revert s. induction evs as [|e evs IH]; intros s.
  - cbn. by rewrite app_nil_r.
  - change (run (e :: evs) s) with (run evs (handle e s)).
    rewrite IH. destruct e; cbn; try done; by rewrite <- app_assoc.
Qed.

(** The fold of [upsert] from the empty list, characterised. *)
Lemma upsert_fold_invariant (ups : list Agent) :
  let final := foldl (λ l d, upsert d l) [] ups in
  NoDup (id <$> final) ∧ ∀ i, by_id i final = last_update i ups.
Proof.
  induction ups as [|d ups IH] using rev_ind; cbn zeta.
  - split; [constructor | done].
  - rewrite foldl_app. cbn [foldl]. destruct IH as [Hnd Hby]. split.
    + by apply NoDup_ids_upsert.
    + intros i. rewrite by_id_upsert, last_update_snoc.
      destruct (decide (id d = i)); [done | apply Hby].
Qed.

End ProjectorFacts.

Section ProjectorClaims.
Import Projector.

Lemma messages_of_cons (e : live_event) (evs : list live_event) :
  messages_of (e :: evs) =
  match message_of e with
  | Some m => m :: messages_of evs
  | None => messages_of evs
  end.
Proof. reflexivity. Qed.

Lemma handovers_of_cons (e : live_event) (evs : list live_event) :
  handovers_of (e :: evs) =
  match handover_of e with
  | Some h => h :: handovers_of evs
  | None => handovers_of evs
  end.
Proof. reflexivity. Qed.

Lemma last_update_Some (i : string) (a : Agent) (ups : list Agent) :
  last_update i ups = Some a → id a = i ∧ a ∈ ups.
Proof.
  unfold last_update. intros H.
  assert (a ∈ filter (λ a, id a = i) ups) as Hin.
  { apply last_Some in H as [l' ->]. apply elem_of_app. right. left. }
  apply list_elem_of_filter in Hin as [? ?]. done.
Qed.

Lemma last_update_is_Some (i : string) (ups : list Agent) :
  i ∈ id <$> ups → is_Some (last_update i ups).
Proof.
  intros (a & -> & Hin)%list_elem_of_fmap. unfold last_update.
  destruct (last _) eqn:E; [by eexists|].
  apply last_None in E.
  assert (a ∈ filter (λ b, id b = id a) ups) as Hf
    by (by apply list_elem_of_filter).
  rewrite E in Hf. by apply elem_of_nil in Hf.
Qed.

(** C1.  Upsert wins last: after any sequence of events starting from the
    empty snapshot, no two stored agents share an id, the stored ids are
    exactly the ids that occurred in agent-update events, and an agent is
    stored if and only if it is the whole payload of the last agent-update
    event carrying its id. *)
Theorem agent_set_upsert_wins_last (evs : list live_event) :
  let final := agents (run evs initial) in
  NoDup (id <$> final) ∧
  (∀ i, i ∈ id <$> final ↔ i ∈ id <$> updates_of evs) ∧
  (∀ a, a ∈ final ↔ last_update (id a) (updates_of evs) = Some a).
Proof.
  cbn zeta. rewrite agents_run. cbn [agents initial].
  destruct (upsert_fold_invariant (updates_of evs)) as [Hnd Hby].
  cbn zeta in Hnd, Hby.
  set (final := foldl _ _ _) in *.
  assert (∀ a, a ∈ final ↔ last_update (id a) (updates_of evs) = Some a) as Hmem.
  { intros a. rewrite <- Hby. by apply by_id_unique. }
  split_and!; [done | | done].
  intros i. split.
  - intros (a & -> & Hin)%list_elem_of_fmap. apply Hmem in Hin.
    apply last_update_Some in Hin as [_ Hin]. by apply list_elem_of_fmap_2.
  - intros [a Ha]%last_update_is_Some.
    pose proof (last_update_Some _ _ _ Ha) as [<- _].
    apply list_elem_of_fmap_2. by apply Hmem.
Qed.

(** C2.  Both logs are append-only: run from any snapshot, the message log
    is the old log followed by the payloads of the message (and thinking)
    events in arrival order, the handover log is the old log followed by the
    payloads of the handover events in arrival order, so each log grows by
    exactly the number of events of its kind; nothing is reordered or
    dropped, a repeated delivery is stored twice, and a handover is stored
    whatever the agent list contains. *)
Theorem logs_grow_in_arrival_order (evs : list live_event) (s : snapshot) :
  messages (run evs s) = messages s ++ messages_of evs ∧
  connections (run evs s) = connections s ++ handovers_of evs ∧
  length (messages (run evs initial)) + length (connections (run evs initial))
    = length (filter (λ e, is_Some (message_of e) ∨ is_Some (handover_of e)) evs) ∧
  (∀ m, messages (run [EvAgentMessage m; EvAgentMessage m] s)
        = messages s ++ [m; m]) ∧
  (∀ h, connections (run [EvAgentHandover h; EvAgentHandover h] s)
        = connections s ++ [h; h]) ∧
  (∀ h, connections (handle (EvAgentHandover h) s) = connections s ++ [h]).
Proof.
  split_and!; try done.
  - apply messages_run.
  - apply connections_run.
  - rewrite messages_run, connections_run. cbn [messages connections initial app].
    clear s. induction evs as [|e evs IH]; [done|].
    rewrite messages_of_cons, handovers_of_cons.
    destruct e; cbn [message_of handover_of].
    1-3: rewrite filter_cons_False; [done | intros [[? [=]]|[? [=]]]].
    1-2: rewrite filter_cons_True by (left; by eexists).
    3: rewrite filter_cons_True by (right; by eexists).
    all: cbn [length]; lia.
  - intros m. by rewrite messages_run.
  - intros h. by rewrite connections_run.
Qed.

(** C9.  The active-agent pointer is overwritten, never combined: whatever
    it held before, a message (or thinking) event leaves it at the message's
    agent id and a handover event leaves it at the handover's destination;
    so after any run it is the target of the last such event, and the old
    value only when there was none. *)
Theorem active_pointer_follows_last_event (s : snapshot) :
  (∀ m, activeAgent (handle (EvAgentMessage m) s) = Some (agent_id m)) ∧
  (∀ m, activeAgent (handle (EvAgentThinking m) s) = Some (agent_id m)) ∧
  (∀ h, activeAgent (handle (EvAgentHandover h) s) = Some (to h)) ∧
  (∀ evs, activeAgent (run evs s) =
          match last (omap pointer_of evs) with
          | Some target => Some target
          | None => activeAgent s
          end).
Proof.
  split_and!; try done.
  induction evs as [|e evs IH] using rev_ind; [done|].
  rewrite run_app, omap_app. cbn [run foldl omap].
  destruct e; simpl; rewrite ?app_nil_r, ?last_snoc; done.

Qed.

End ProjectorClaims.

(* ===================================================================== *)
(** * Bootstrap: failure and success *)
(* ===================================================================== *)

Section BootstrapClaims.
Import JS Projector Bootstrap.














End BootstrapClaims.

(* ===================================================================== *)
(** * Layout Projector: positions and connectors *)
(* ===================================================================== *)

(** Side condition of the last-wins lemma on a literal list: later indices
    carry other ids. *)
Ltac later_ids :=
  let j := fresh "j" in
  let b := fresh "b" in
  let Hj := fresh "Hj" in
  let Hlt := fresh "Hlt" in
  intros j b Hj Hlt;
  repeat (destruct j as [|j]; cbn in Hj;
          first [lia | by simplify_eq/= | idtac]).

Section LayoutClaims.
Import JS Layout.
Local Open Scope R_scope.

(** The loop of [calculatePositions], for an arbitrary placement function
    and a running start index. *)
Lemma place_loop_untouched (P : nat → point) (l : list Agent) (k : nat)
    (m : gmap string point) (key : string) :
  key ∉ id <$> l →
  foldl (λ (positions : gmap string point) '(index, agent),
           <[id agent := P index]> positions)
        m (imap (λ j b, (k + j, b)%nat) l) !! key = m !! key.
Proof.
  revert k m. induction l as [|a l IH]; intros k m Hkey; [done|].
  rewrite imap_cons. cbn [foldl].
  rewrite (imap_ext _ (λ j b, (S k + j, b)%nat)) by (intros; cbn; f_equal; lia).
  rewrite IH.
  - apply lookup_insert_ne. intros E. apply Hkey. rewrite <- E. left.
  - intros Hin. apply Hkey. by right.
Qed.

Lemma place_loop_last_wins (P : nat → point) (l : list Agent) (k : nat)
    (m : gmap string point) (i : nat) (a : Agent) :
  l !! i = Some a →
  (∀ j b, l !! j = Some b → (i < j)%nat → id b ≠ id a) →
  foldl (λ (positions : gmap string point) '(index, agent),
           <[id agent := P index]> positions)
        m (imap (λ j b, (k + j, b)%nat) l) !! id a = Some (P (k + i)%nat).
Proof.
  revert k m i. induction l as [|b l IH]; intros k m i Hi Hlater; [done|].
  rewrite imap_cons. cbn [foldl].
  rewrite (imap_ext _ (λ j b, (S k + j, b)%nat)) by (intros; cbn; f_equal; lia).
  destruct i as [|i].
  - injection Hi as ->. rewrite place_loop_untouched.
    + rewrite Nat.add_0_r. apply lookup_insert_eq.
    + intros (c & E & Hc)%list_elem_of_fmap.
      apply list_elem_of_lookup in Hc as [j Hj].
      apply (Hlater (S j) c); [done | lia | done].
  - replace (k + S i)%nat with (S k + i)%nat by lia. apply IH; [done|].
    intros j c Hj Hlt. apply (Hlater (S j) c); [done | lia].
Qed.

Lemma calculatePositions_point (svgRef : option SVGElement) (N i : nat) :
  {| x := width svgRef / 2
          + Rmin (width svgRef) (height svgRef) * 0.35
            * cos (INR i / INR N * 2 * PI);
     y := height svgRef / 2
          + Rmin (width svgRef) (height svgRef) * 0.35
            * sin (INR i / INR N * 2 * PI) |}
  = on_circle (width svgRef) (height svgRef) N i.
Proof.
  unfold on_circle.
  replace (INR i / INR N * 2 * PI) with (INR i / INR N * (2 * PI)) by ring.
  f_equal; ring.
Qed.

(** The map holds, under each id, the circle position of the last index
    that carries it. *)
Lemma calculatePositions_last_wins (svgRef : option SVGElement)
    (agents : list Agent) (i : nat) (a : Agent) :
  agents !! i = Some a →
  (∀ j b, agents !! j = Some b → (i < j)%nat → id b ≠ id a) →
  calculatePositions svgRef agents !! id a =
  Some (on_circle (width svgRef) (height svgRef) (length agents) i).
Proof.
  intros Hi Hlater. unfold calculatePositions. cbn zeta.
  rewrite <- calculatePositions_point.
  change (imap pair agents) with (imap (λ j b, (0 + j, b)%nat) agents).
  by rewrite (place_loop_last_wins
    (λ index, {| x := width svgRef / 2
                      + Rmin (width svgRef) (height svgRef) * 0.35
                        * cos (INR index / INR (length agents) * 2 * PI);
                 y := height svgRef / 2
                      + Rmin (width svgRef) (height svgRef) * 0.35
                        * sin (INR index / INR (length agents) * 2 * PI) |})
    agents 0 ∅ i a Hi Hlater).
Qed.

Lemma calculatePositions_absent (svgRef : option SVGElement)
    (agents : list Agent) (key : string) :
  key ∉ id <$> agents → calculatePositions svgRef agents !! key = None.
Proof.
  intros Hkey. unfold calculatePositions. cbn zeta.
  change (imap pair agents) with (imap (λ j b, (0 + j, b)%nat) agents).
  by rewrite (place_loop_untouched
    (λ index, {| x := width svgRef / 2
                      + Rmin (width svgRef) (height svgRef) * 0.35
                        * cos (INR index / INR (length agents) * 2 * PI);
                 y := height svgRef / 2
                      + Rmin (width svgRef) (height svgRef) * 0.35
                        * sin (INR index / INR (length agents) * 2 * PI) |})
    agents 0 ∅ key Hkey).
Qed.

Lemma NoDup_ids_later (agents : list Agent) (i : nat) (a : Agent) :
  NoDup (id <$> agents) → agents !! i = Some a →
  ∀ j b, agents !! j = Some b → (i < j)%nat → id b ≠ id a.
Proof.
  intros Hnd Hi j b Hj Hlt E.
  assert (i = j); [|lia].
  eapply NoDup_lookup; [exact Hnd | |].
  - rewrite list_lookup_fmap, Hi. reflexivity.
  - rewrite list_lookup_fmap, Hj. cbn. by rewrite E.
Qed.

Lemma on_circle_x (W H : R) (N i : nat) :
  x (on_circle W H N i) =
  W / 2 + 0.35 * Rmin W H * cos (INR i / INR N * (2 * PI)).
Proof. reflexivity. Qed.

Lemma Rmin_600_400 : Rmin 600 400 = 400.
Proof. apply Rmin_right. lra. Qed.

Lemma Rmin_0_400 : Rmin 0 400 = 0.
Proof. apply Rmin_left. lra. Qed.

(** Counterexample to C3 as stated.  First, a viewport of width 0 and
    height 400 with a single agent: the claim puts the agent at x = 0, the
    code falls back to width 600 and puts it at x = 440.  Second, two
    records sharing id A in a 600 by 400 viewport: the claim puts index 0 at
    angle 0; the map holds, under A, the position of index 1 at angle π. *)
Lemma layout_departs_from_plain_formula :
  calculatePositions (Some Scenario.svg_0_400) [Scenario.agentA]
    !! id Scenario.agentA ≠ Some (on_circle 0 400 1 0) ∧
  calculatePositions (Some Scenario.svg_600_400)
    [Scenario.agentA; Scenario.agentA_again]
    !! id Scenario.agentA ≠ Some (on_circle 600 400 2 0).
Proof.
  split.
  - rewrite (calculatePositions_last_wins _ [Scenario.agentA] 0
               Scenario.agentA eq_refl) by later_ids.
    change (width (Some Scenario.svg_0_400)) with 600.
    change (height (Some Scenario.svg_0_400)) with 400.
    intros Hx. apply (f_equal (from_option x 0)) in Hx.
    cbn [from_option] in Hx. rewrite !on_circle_x in Hx. cbn [length] in Hx.
    revert Hx. rewrite Rmin_600_400, Rmin_0_400.
    replace (INR 0 / INR 1 * (2 * PI)) with 0 by (simpl; field).
    rewrite cos_0. lra.
  - change (id Scenario.agentA) with (id Scenario.agentA_again).
    rewrite (calculatePositions_last_wins _
               [Scenario.agentA; Scenario.agentA_again] 1
               Scenario.agentA_again eq_refl) by later_ids.
    change (width (Some Scenario.svg_600_400)) with 600.
    change (height (Some Scenario.svg_600_400)) with 400.
    intros Hx. apply (f_equal (from_option x 0)) in Hx.
    cbn [from_option] in Hx. rewrite !on_circle_x in Hx. cbn [length] in Hx.
    revert Hx. rewrite Rmin_600_400.
    replace (INR 1 / INR 2 * (2 * PI)) with PI by (simpl; field).
    replace (INR 0 / INR 2 * (2 * PI)) with 0 by (simpl; field).
    rewrite cos_0, cos_PI. lra.
Qed.

(** What is read back under a stored id is the stored position. *)
Lemma read_stored (positions : gmap string point) (key : string) (p : point) :
  positions !! key = Some p → read positions key = Position p.
Proof. intros H. unfold read. by rewrite H. Qed.

(** C3, amended.  For agents with pairwise distinct ids, the agent at index
    i of N is stored, and read back under its id, at
    (W/2 + r·cos θ, H/2 + r·sin θ) with θ = (i/N)·2π and r = 0.35·min(W, H).
    W is the client width of the mounted svg element when that is not zero,
    and 600 when the element is not mounted or its width is zero; H is the
    client height when that is not zero, and 400 otherwise; each dimension
    is settled on its own.  With three agents in a 600 by 400 viewport the
    centre is (300, 200), the radius 140 and the angles 0, 2π/3 and 4π/3.
    With no agent the map is empty. *)
Theorem positions_lie_on_the_circle :
  (∀ svgRef agents i a,
     NoDup (id <$> agents) → agents !! i = Some a →
     calculatePositions svgRef agents !! id a =
     Some (on_circle (width svgRef) (height svgRef) (length agents) i) ∧
     read (calculatePositions svgRef agents) (id a) =
     Position (on_circle (width svgRef) (height svgRef) (length agents) i)) ∧
  (∀ el, clientWidth el ≠ 0%Z → width (Some el) = IZR (clientWidth el)) ∧
  (∀ el, clientHeight el ≠ 0%Z → height (Some el) = IZR (clientHeight el)) ∧
  (width None = 600 ∧ height None = 400) ∧
  (∀ el, (clientWidth el = 0%Z → width (Some el) = 600) ∧
         (clientHeight el = 0%Z → height (Some el) = 400)) ∧
  (∀ svgRef, calculatePositions svgRef [] = ∅) ∧
  (let positions :=
     calculatePositions (Some Scenario.svg_600_400)
       [Scenario.agentA; Scenario.agentB; Scenario.agentC] in
   positions !! "A" = Some {| x := 300 + 140 * cos 0; y := 200 + 140 * sin 0 |} ∧
   positions !! "B" = Some {| x := 300 + 140 * cos (2 * PI / 3);
                              y := 200 + 140 * sin (2 * PI / 3) |} ∧
   positions !! "C" = Some {| x := 300 + 140 * cos (4 * PI / 3);
                              y := 200 + 140 * sin (4 * PI / 3) |}).
Proof.
  split_and!.
  - intros svgRef agents i a Hnd Hi.
    assert (calculatePositions svgRef agents !! id a =
            Some (on_circle (width svgRef) (height svgRef) (length agents) i))
      as Hat.
    { apply calculatePositions_last_wins; [done|]. by apply NoDup_ids_later. }
    split; [done | by apply read_stored].
  - intros [w h] Hw. unfold width. cbn in *.
    by rewrite (proj2 (Z.eqb_neq w 0)).
  - intros [w h] Hh. unfold height. cbn in *.
    by rewrite (proj2 (Z.eqb_neq h 0)).
  - done.
  - done.
  - intros [w h]. unfold width, height. cbn. split; intros ->; done.
  - done.
  - cbn zeta. split_and!.
    + change "A" with (id Scenario.agentA).
      rewrite (calculatePositions_last_wins _
                 [Scenario.agentA; Scenario.agentB; Scenario.agentC] 0
                 Scenario.agentA eq_refl) by later_ids.
      change (width (Some Scenario.svg_600_400)) with 600.
      change (height (Some Scenario.svg_600_400)) with 400.
      unfold on_circle. rewrite Rmin_600_400.
      replace (INR 0 / INR (length _) * (2 * PI)) with 0 by (simpl; field).
      do 2 f_equal; lra.
    + change "B" with (id Scenario.agentB).
      rewrite (calculatePositions_last_wins _
                 [Scenario.agentA; Scenario.agentB; Scenario.agentC] 1
                 Scenario.agentB eq_refl) by later_ids.
      change (width (Some Scenario.svg_600_400)) with 600.
      change (height (Some Scenario.svg_600_400)) with 400.
      unfold on_circle. rewrite Rmin_600_400.
      replace (INR 1 / INR (length _) * (2 * PI)) with (2 * PI / 3)
        by (simpl; field).
      do 2 f_equal; lra.
    + change "C" with (id Scenario.agentC).
      rewrite (calculatePositions_last_wins _
                 [Scenario.agentA; Scenario.agentB; Scenario.agentC] 2
                 Scenario.agentC eq_refl) by later_ids.
      change (width (Some Scenario.svg_600_400)) with 600.
      change (height (Some Scenario.svg_600_400)) with 400.
      unfold on_circle. rewrite Rmin_600_400.
      replace (INR 2 / INR (length _) * (2 * PI)) with (4 * PI / 3)
        by (simpl; field).
      do 2 f_equal; lra.
Qed.

Lemma positions_lie_on_the_circle_witness :
  calculatePositions (Some Scenario.svg_600_400)
    [Scenario.agentA; Scenario.agentB; Scenario.agentC] !! "B" =
  Some (on_circle 600 400 3 1) ∧
  read (calculatePositions (Some Scenario.svg_600_400)
          [Scenario.agentA; Scenario.agentB; Scenario.agentC]) "B" =
  Position (on_circle 600 400 3 1).
Proof.
  apply (proj1 positions_lie_on_the_circle (Some Scenario.svg_600_400)
           [Scenario.agentA; Scenario.agentB; Scenario.agentC] 1%nat
           Scenario.agentB).
  - apply (bool_decide_unpack _). vm_compute. exact I.
  - reflexivity.
Defined.

(** What the position object answers under a key nothing was stored
    under. *)
Lemma read_inherited (positions : gmap string point) (key : string) :
  positions !! key = None → key ∈ Object_prototype →
  read positions key = Builtin.
Proof.
  intros H Hin. unfold read. rewrite H. by rewrite bool_decide_eq_true_2.
Qed.

Lemma read_ordinary (positions : gmap string point) (key : string) :
  positions !! key = None → ordinary key → read positions key = Undefined.
Proof.
  intros H (Hout & Hx & Hy). unfold read. rewrite H.
  rewrite bool_decide_eq_false_2 by done.
  destruct (positions !! "__proto__"); [|done].
  by rewrite !bool_decide_eq_false_2.
Qed.

Lemma read_Position (positions : gmap string point) (key : string) (p : point) :
  read positions key = Position p → positions !! key = Some p.
Proof.
  unfold read. destruct (positions !! key) as [q|]; [by intros [= ->]|].
  repeat case_match; discriminate.
Qed.

(** One connection: the callback returns; with [null] when an end point
    reads as a falsy value, with a curve exactly when both end points are
    stored positions, with an element in any case when both are truthy. *)
Lemma renderConnection_total (positions : gmap string point)
    (agents : list Agent) (activeAgent : option string)
    (connection : AgentHandover) (index : nat) :
  ∃ r, renderConnection positions agents activeAgent connection index = Normal r ∧
       (member_truthy (read positions (from connection)) = false ∨
        member_truthy (read positions (to connection)) = false → r = None) ∧
       (is_Some (positions !! from connection) →
        is_Some (positions !! to connection) → ∃ g, r = Some (Curve g)) ∧
       (∀ g, r = Some (Curve g) →
          is_Some (positions !! from connection) ∧
          is_Some (positions !! to connection)) ∧
       (member_truthy (read positions (from connection)) = true →
        member_truthy (read positions (to connection)) = true →
        (∃ g, r = Some (Curve g)) ∨ (∃ m, r = Some (NotANumber m))).
Proof.
  unfold renderConnection.
  destruct (read positions (from connection)) as [p| |v|] eqn:Hf;
    destruct (read positions (to connection)) as [q| |u|] eqn:Ht;
    cbn [member_truthy];
    repeat match goal with
           | |- context [Req_dec_T ?a ?b] => destruct (Req_dec_T a b)
           end;
    cbn [negb orb member_prop cbind end_point];
    (eexists; split; [reflexivity|]);
    (split_and!;
     [ try (intros [?|?]; done)
     | try (intros [? Hs] [? Hs']; apply read_stored in Hs, Hs'; congruence)
     | try (intros ? [=])
     | try (intros ? ?; first [done | left; by eexists | right; by eexists]) ]).
  all: try (intros _ _; by eexists).
  all: apply read_Position in Hf, Ht; split; by eexists.
Qed.

(** [map] over a callback that always returns, returns: one result per
    element, at the same index. *)
Lemma map_from_total {A B} (k : A → nat → completion B) (l : list A) (n : nat) :
  (∀ a i, ∃ b, k a i = Normal b) →
  ∃ out, map_from k n l = Normal out ∧
         length out = length l ∧
         ∀ i a, l !! i = Some a →
                ∃ b, out !! i = Some b ∧ k a (n + i)%nat = Normal b.
Proof.
  intros Hk. revert n. induction l as [|a l IH]; intros n.
  - exists []. split_and!; [done | done | intros ? ? [=]].
  - destruct (Hk a n) as [b Hb]. destruct (IH (S n)) as (out & Hout & Hlen & Hat).
    exists (b :: out). cbn [map_from]. rewrite Hb. cbn [cbind].
    rewrite Hout. cbn [cbind]. split_and!; [done | by cbn; rewrite Hlen |].
    intros [|i] a' Hi.
    + injection Hi as <-. exists b. by rewrite Nat.add_0_r.
    + destruct (Hat i a' Hi) as (b' & ? & ?). exists b'.
      by replace (n + S i)%nat with (S n + i)%nat by lia.
Qed.

Lemma drawn_all_null (out : list (option element)) :
  (∀ o, o ∈ out → o = None) → drawn out = [].
Proof.
  induction out as [|o out IH]; intros Hall; [done|].
  unfold drawn in *. cbn. rewrite (Hall o) by left.
  apply IH. intros o' Ho'. apply Hall. by right.
Qed.

(** The slots of [renderConnectionsAt] for an arbitrary position object. *)
Lemma renderConnectionsAt_slots (positions : gmap string point)
    (agents : list Agent) (activeAgent : option string)
    (connections : list AgentHandover) :
  ∃ out,
    renderConnectionsAt positions agents activeAgent connections = Normal out ∧
    length out = length connections ∧
    ∀ i c, connections !! i = Some c →
      ∃ r, out !! i = Some r ∧
           renderConnection positions agents activeAgent c i = Normal r.
Proof.
  destruct (map_from_total (renderConnection positions agents activeAgent)
              connections 0) as (out & Hout & Hlen & Hat).
  { intros c i.
    destruct (renderConnection_total positions agents activeAgent c i)
      as (r & Hr & _). by exists r. }
  exists out. split_and!; [done | done |].
  intros i c Hi. destruct (Hat i c Hi) as (b & Hb & Hk). by exists b.
Qed.

(** C4, as the code has it.  Deriving the connectors never throws, whatever
    the handover list and the position object: the call returns one result
    per handover; a curve when both ids have a stored position; [null], so
    nothing is drawn, when an id without a stored position is an ordinary
    name.  Without handovers the result is empty, and on an object without
    positions no curve is returned.  But an id without a stored position is
    not omitted when it names a member that every object inherits: with
    agent A alone, the handover from ["constructor"] to ["A"] finds the
    function [Object] as its start, passes the guard, and gets an element
    whose start coordinates are [undefined] and whose control point is
    [NaN]. *)
Theorem inherited_name_is_not_omitted :
  (∀ positions agents activeAgent connections,
     ∃ out,
       renderConnectionsAt positions agents activeAgent connections
       = Normal out ∧
       length out = length connections ∧
       (∀ i c, connections !! i = Some c →
               is_Some (positions !! from c) → is_Some (positions !! to c) →
               ∃ g, out !! i = Some (Some (Curve g))) ∧
       (∀ i c, connections !! i = Some c →
               (positions !! from c = None ∧ ordinary (from c)) ∨
               (positions !! to c = None ∧ ordinary (to c)) →
               out !! i = Some None) ∧
       (positions = ∅ → ∀ i g, out !! i ≠ Some (Some (Curve g)))) ∧
  (∀ positions agents activeAgent,
     renderConnectionsAt positions agents activeAgent [] = Normal []) ∧
  (calculatePositions None [Scenario.agentA] !! "constructor" = None ∧
   renderConnections None [Scenario.agentA] None
     [Scenario.handover_from_constructor]
   = Normal [Some (NotANumber
       {| bad_from := None;
          bad_to := Some (on_circle 600 400 1 0);
          bad_gradient_from := "#3b82f6";
          bad_gradient_to := "#3b82f6";
          bad_animated := false;
          bad_label := None |})]).
Proof.
  split; [|split].
  - intros positions agents activeAgent connections.
    destruct (renderConnectionsAt_slots positions agents activeAgent connections)
      as (out & Hout & Hlen & Hat).
    exists out. split_and!; [done | done | | |].
    + intros i c Hi Hfrom Hto. destruct (Hat i c Hi) as (r & Hr & Hk).
      destruct (renderConnection_total positions agents activeAgent c i)
        as (r' & Hr' & _ & Hcurve & _).
      rewrite Hr' in Hk. injection Hk as <-.
      destruct (Hcurve Hfrom Hto) as [g ->]. by exists g.
    + intros i c Hi Hmissing. destruct (Hat i c Hi) as (r & Hr & Hk).
      destruct (renderConnection_total positions agents activeAgent c i)
        as (r' & Hr' & Hnone & _).
      rewrite Hr' in Hk. injection Hk as <-. rewrite Hr, Hnone; [done|].
      destruct Hmissing as [[H Ho]|[H Ho]];
        [left | right]; by rewrite read_ordinary.
    + intros -> i g Hg.
      assert (is_Some (connections !! i)) as [c Hc].
      { apply lookup_lt_is_Some. rewrite <- Hlen. by eapply lookup_lt_Some. }
      destruct (Hat i c Hc) as (r & Hr & Hk).
      destruct (renderConnection_total ∅ agents activeAgent c i)
        as (r' & Hr' & _ & _ & Hback & _).
      rewrite Hr' in Hk. injection Hk as <-.
      rewrite Hr in Hg. injection Hg as ->.
      destruct (Hback g eq_refl) as [[? Hf] _]. by rewrite lookup_empty in Hf.
  - done.
  - assert (calculatePositions None [Scenario.agentA] !! "constructor" = None)
      as Hnone.
    { apply calculatePositions_absent. apply (bool_decide_unpack _).
      vm_compute. exact I. }
    split; [done|].
    unfold renderConnections, renderConnectionsAt, array_map.
    cbn [map_from]. unfold renderConnection.
    change (from Scenario.handover_from_constructor) with "constructor".
    change (to Scenario.handover_from_constructor) with (id Scenario.agentA).
    rewrite (read_inherited _ "constructor" Hnone)
      by (apply (bool_decide_unpack _); vm_compute; exact I).
    rewrite (read_stored _ _ _
               (calculatePositions_last_wins None [Scenario.agentA] 0
                  Scenario.agentA eq_refl ltac:(later_ids))).
    reflexivity.
Qed.

End LayoutClaims.

(* ===================================================================== *)
(** * Event Channel: delivery, idempotent connect, exhaustion *)
(* ===================================================================== *)

Section ChannelFacts.
Import JS Channel.
Context {App : Type}.
Implicit Types (w : world App) (cb : callback App).

Lemma forEach_deliver (event : SocketEvent) (data : payload)
    (callbacks : list (callback App)) w :
  forEach callbacks (λ callback,
    try_catch
      (call event callback data)
      (λ error,
         print (Error ("Error in " ++ event_name event ++ " listener:")
                      (Some error)))) w
  = (Normal tt, deliver_all event data callbacks w).
Proof.
  revert w. induction callbacks as [|cb rest IH]; intros w; [done|].
  cbn [forEach deliver_all]. unfold JS.bind at 1.
  unfold try_catch at 1, call at 1.
  destruct (body cb data _) as [[[]|e] a]; cbn; apply IH.
Qed.

Lemma notifyListeners_deliver (event : SocketEvent) (data : payload) w :
  notifyListeners event data w =
  (Normal tt, deliver_all event data (registered event (service w)) w).
Proof.
  unfold notifyListeners, registered, JS.bind, get.
  destruct (listeners (service w) !! event_name event) as [cbs|]; cbn [default].
  - apply forEach_deliver.
  - reflexivity.
Qed.

Lemma deliver_all_service (event : SocketEvent) (data : payload)
    (callbacks : list (callback App)) w :
  service (deliver_all event data callbacks w) = service w.
Proof.
  revert w. induction callbacks as [|cb rest IH]; intros w; [done|].
  cbn [deliver_all]. rewrite IH. by destruct (body cb data _) as [[[]|e] a].
Qed.

Lemma deliver_all_transport (event : SocketEvent) (data : payload)
    (callbacks : list (callback App)) w :
  transport (deliver_all event data callbacks w) = transport w.
Proof.
  revert w. induction callbacks as [|cb rest IH]; intros w; [done|].
  cbn [deliver_all]. rewrite IH. by destruct (body cb data _) as [[[]|e] a].
Qed.

Lemma deliver_all_calls (event : SocketEvent) (data : payload)
    (callbacks : list (callback App)) w :
  calls (deliver_all event data callbacks w) =
  calls w ++ ((λ cb, (event_name event, ref cb)) <$> callbacks).
Proof.
  revert w. induction callbacks as [|cb rest IH]; intros w.
  - cbn. by rewrite app_nil_r.
  - cbn [deliver_all]. rewrite IH.
    destruct (body cb data _) as [[[]|e] a]; cbn; by rewrite <- app_assoc.
Qed.

End ChannelFacts.

Section ChannelClaims.
Import JS Channel.

(** What one connect-error does to the channel. *)
Lemma on_connect_error_step {App} (error : payload) (w : world App) :
  ∃ w',
    on_connect_error error w = (Normal tt, w') ∧
    reconnectAttempts (service w') = S (reconnectAttempts (service w)) ∧
    maxReconnectAttempts (service w') = maxReconnectAttempts (service w) ∧
    listeners (service w') = listeners (service w) ∧
    calls w' =
      calls w ++ ((λ cb, (event_name CONNECT_ERROR, ref cb))
                  <$> registered CONNECT_ERROR (service w)) ∧
    if decide (reconnectAttempts (service w) < maxReconnectAttempts (service w))
    then socket (service w') = socket (service w) ∧
         connected (service w') = connected (service w) ∧
         transport w' = transport w
    else socket (service w') = None ∧
         (is_Some (socket (service w)) →
          connected (service w') = false ∧
          transport w' = transport w ++ [SocketDisconnect]).
Proof.
  unfold on_connect_error.
  unfold JS.bind at 1. cbn [print modify].
  unfold JS.bind at 1. rewrite notifyListeners_deliver.
  set (w1 := deliver_all _ _ _ _).
  assert (service w1 = service w) as Hsvc
    by (unfold w1; by rewrite deliver_all_service).
  assert (transport w1 = transport w) as Htr
    by (unfold w1; by rewrite deliver_all_transport).
  assert (calls w1 = calls w ++ ((λ cb, (event_name CONNECT_ERROR, ref cb))
                  <$> registered CONNECT_ERROR (service w))) as Hcalls
    by (unfold w1; by rewrite deliver_all_calls).
  clearbody w1. destruct w1 as [svc1 app1 con1 tr1 calls1].
  cbn [service transport calls] in Hsvc, Htr, Hcalls. subst svc1 tr1 calls1.
  unfold JS.bind, set_service, modify, get.
  cbn [service set_reconnectAttempts reconnectAttempts maxReconnectAttempts].
  rewrite Nat.add_1_r.
  destruct (decide (_ < _)) as [Hlt|Hge].
  - assert ((maxReconnectAttempts (service w)
             <? S (reconnectAttempts (service w)))%nat = false) as ->
      by (apply Nat.ltb_ge; lia).
    eexists. split; [reflexivity|]. done.
  - assert ((maxReconnectAttempts (service w)
             <? S (reconnectAttempts (service w)))%nat = true) as ->
      by (apply Nat.ltb_lt; lia).
    unfold disconnect, JS.bind, get, print, perform, set_service, modify.
    cbn [service set_reconnectAttempts socket].
    destruct (socket (service w)) as [sk|] eqn:Hsk.
    + eexists. split; [reflexivity|]. cbn. split_and!; try done.
    + eexists. split; [reflexivity|]. cbn. split_and!; try done.
Qed.

Lemma registered_listeners {App} (event : SocketEvent) (svc svc' : SocketService App) :
  listeners svc' = listeners svc → registered event svc' = registered event svc.
Proof. unfold registered. by intros ->. Qed.

(** While the counter stays within the maximum, errors only count up and
    notify. *)
Lemma connect_errors_below {App} (n : nat) (error : payload) (w : world App)
    (sk : Socket) :
  socket (service w) = Some sk →
  (reconnectAttempts (service w) + n ≤ maxReconnectAttempts (service w))%nat →
  ∃ w',
    connect_errors n error w = (Normal tt, w') ∧
    socket (service w') = Some sk ∧
    connected (service w') = connected (service w) ∧
    reconnectAttempts (service w') = (reconnectAttempts (service w) + n)%nat ∧
    maxReconnectAttempts (service w') = maxReconnectAttempts (service w) ∧
    listeners (service w') = listeners (service w) ∧
    transport w' = transport w ∧
    calls w' =
      calls w ++
      concat (replicate n ((λ cb, (event_name CONNECT_ERROR, ref cb))
                           <$> registered CONNECT_ERROR (service w))).
Proof.
  revert w. induction n as [|n IH]; intros w Hsk Hle.
  - exists w. cbn. rewrite Nat.add_0_r, app_nil_r. done.
  - destruct (on_connect_error_step error w)
      as (w1 & Hstep & Hatt & Hmax & Hlis & Hcalls & Hrest).
    rewrite decide_True in Hrest by lia. destruct Hrest as (Hs1 & Hc1 & Ht1).
    destruct (IH w1) as (w' & Hrun & Hs & Hc & Ha & Hm & Hl & Ht & Hcs).
    { by rewrite Hs1. }
    { rewrite Hatt, Hmax. lia. }
    exists w'. cbn [connect_errors]. unfold JS.bind. rewrite Hstep.
    split_and!; try congruence.
    + rewrite Ha, Hatt. lia.
    + rewrite Hcs, Hcalls, (registered_listeners _ _ _ Hlis).
      cbn [replicate concat]. by rewrite <- app_assoc.
Qed.

Lemma connect_errors_last {App} (n : nat) (error : payload) (w : world App) :
  connect_errors (S n) error w =
  match connect_errors n error w with
  | (Normal _, w') => on_connect_error error w'
  | (Throw e, w') => (Throw e, w')
  end.
Proof.
  revert w. induction n as [|n IH]; intros w.
  - cbn [connect_errors]. unfold JS.bind, ret.
    by destruct (on_connect_error error w) as [[[]|e] w'].
  - change (connect_errors (S (S n)) error w)
      with (JS.bind (on_connect_error error)
              (λ _, connect_errors (S n) error) w).
    change (connect_errors (S n) error w)
      with (JS.bind (on_connect_error error)
              (λ _, connect_errors n error) w).
    unfold JS.bind.
    destruct (on_connect_error error w) as [[[]|e] w1]; [apply IH | done].
Qed.

(** Counterexample to C5 as stated: [connect()] on a fresh service with two
    subscribers, then five connect-errors in a row.  The channel still holds
    its socket (it is connecting, not disconnected), nothing was torn down,
    and the counting subscriber has been notified five times, not once. *)
Lemma five_errors_do_not_exhaust :
  let w5 := (connect_errors 5 Scenario.timed_out Scenario.connecting_channel).2 in
  maxReconnectAttempts (service Scenario.connecting_channel) = 5 ∧
  reconnectAttempts (service Scenario.connecting_channel) = 0 ∧
  connection_state (service w5) = Connecting ∧
  connection_state (service w5) ≠ Disconnected ∧
  transport w5 = transport Scenario.connecting_channel ∧
  times_called CONNECT_ERROR Scenario.counting w5 = 5 ∧
  app w5 = 5.
Proof. vm_compute. split_and!; done. Qed.

(** C5, amended.  With the maximum at 5 and the counter at 0, five
    connect-errors in a row leave the channel as it was, socket in hand,
    with the counter at 5; each error was forwarded to every connect-error
    subscriber.  The sixth error takes the counter past the maximum: the
    socket is disconnected and dropped, the channel is disconnected, and
    that error too was forwarded like the others, six notifications per
    subscriber in all and none of a separate kind. *)
Theorem exhaustion_on_the_sixth_error {App} (w : world App) (sk : Socket)
    (error : payload) :
  socket (service w) = Some sk →
  reconnectAttempts (service w) = 0 →
  maxReconnectAttempts (service w) = 5 →
  let notified :=
    (λ cb, (event_name CONNECT_ERROR, ref cb))
    <$> registered CONNECT_ERROR (service w) in
  (∃ w5,
     connect_errors 5 error w = (Normal tt, w5) ∧
     socket (service w5) = Some sk ∧
     connection_state (service w5) = connection_state (service w) ∧
     reconnectAttempts (service w5) = 5 ∧
     transport w5 = transport w ∧
     calls w5 = calls w ++ concat (replicate 5 notified)) ∧
  (∃ w6,
     connect_errors 6 error w = (Normal tt, w6) ∧
     socket (service w6) = None ∧
     connected (service w6) = false ∧
     connection_state (service w6) = Disconnected ∧
     reconnectAttempts (service w6) = 6 ∧
     transport w6 = transport w ++ [SocketDisconnect] ∧
     calls w6 = calls w ++ concat (replicate 6 notified)).
Proof.
  intros Hsk Hatt Hmax notified.
  destruct (connect_errors_below 5 error w sk Hsk)
    as (w5 & Hrun & Hs & Hc & Ha & Hm & Hl & Ht & Hcs); [lia|].
  split.
  - exists w5. split_and!; try done.
    + unfold connection_state. by rewrite Hs, Hsk, Hc.
    + lia.
  - destruct (on_connect_error_step error w5)
      as (w6 & Hstep & Hatt6 & _ & _ & Hcalls6 & Hrest).
    rewrite decide_False in Hrest by lia. destruct Hrest as [Hs6 Hdown].
    destruct Hdown as [Hc6 Ht6]; [rewrite Hs; by eexists|].
    exists w6. split_and!; try done.
    + by rewrite connect_errors_last, Hrun.
    + unfold connection_state. by rewrite Hs6.
    + lia.
    + by rewrite Ht6, Ht.
    + rewrite Hcalls6, Hcs, (registered_listeners _ _ _ Hl).
      rewrite <- app_assoc. f_equal.
      change 6 with (5 + 1). rewrite replicate_add, concat_app.
      cbn [replicate concat]. subst notified. by rewrite !app_nil_r.
Qed.

Lemma exhaustion_on_the_sixth_error_witness :
  (∃ w5, connect_errors 5 Scenario.timed_out Scenario.connecting_channel
         = (Normal tt, w5) ∧
         reconnectAttempts (service w5) = 5 ∧ is_Some (socket (service w5))) ∧
  (∃ w6, connect_errors 6 Scenario.timed_out Scenario.connecting_channel
         = (Normal tt, w6) ∧
         connection_state (service w6) = Disconnected).
Proof.
  destruct (exhaustion_on_the_sixth_error Scenario.connecting_channel
              {| sock_url := "http://localhost:12001"; reconnection := true;
                 reconnectionAttempts := 5; reconnectionDelay := 2000;
                 reconnectionDelayMax := 10000; timeout := 20000 |}
              Scenario.timed_out eq_refl eq_refl eq_refl)
    as [(w5 & H5 & Hs5 & _ & Ha5 & _) (w6 & H6 & _ & _ & Hd6 & _)].
  split.
  - exists w5. split_and!; [exact H5 | exact Ha5 | rewrite Hs5; by eexists].
  - exists w6. split; [exact H6 | exact Hd6].
Defined.

(** C6.  [connect()] is idempotent: called on a channel that is connecting
    or connected, it returns at once and the whole world is as before, the
    connection state, the attempt counter, the listeners, and the journal
    of transport calls, so no second connection was opened. *)
Theorem connect_again_is_a_no_op {App} (w : world App) :
  connection_state (service w) = Connecting ∨
  connection_state (service w) = Connected →
  connect w = (Normal tt, w).
Proof.
  intros Hstate. unfold connect, JS.bind, get.
  unfold connection_state in Hstate.
  destruct (socket (service w)) as [sk|]; [done|].
  by destruct Hstate.
Qed.

Lemma connect_again_is_a_no_op_witness :
  connection_state (service Scenario.connecting_channel) = Connecting ∧
  connect Scenario.connecting_channel = (Normal tt, Scenario.connecting_channel).
Proof.
  split; [reflexivity|].
  apply (connect_again_is_a_no_op Scenario.connecting_channel).
  left. reflexivity.
Defined.

(** The first [connect()] does open a connection. *)
Lemma connect_from_disconnected {App} (w : world App) :
  socket (service w) = None →
  ∃ w' sk, connect w = (Normal tt, w') ∧
           socket (service w') = Some sk ∧
           transport w' = transport w ++ [IoOpen sk] ∧
           connection_state (service w') =
             (if connected (service w) then Connected else Connecting).
Proof.
  intros Hsk. unfold connect, JS.bind, get. rewrite Hsk.
  eexists _, _. split; [reflexivity|]. done.
Qed.

(** C7.  Delivery reaches every registered handler: for any event kind,
    payload and world, [notifyListeners] returns normally, having called
    each handler registered for the kind exactly once, in registration
    order, whether or not any of them threw; a throwing handler is logged
    and the next one runs.  The service itself is untouched. *)
Theorem delivery_reaches_every_handler {App} (event : SocketEvent)
    (data : payload) (w : world App) :
  let handlers := registered event (service w) in
  ∃ w',
    notifyListeners event data w = (Normal tt, w') ∧
    w' = deliver_all event data handlers w ∧
    calls w' = calls w ++ ((λ cb, (event_name event, ref cb)) <$> handlers) ∧
    service w' = service w ∧
    transport w' = transport w.
Proof.
  cbn zeta. eexists. split; [apply notifyListeners_deliver|].
  split_and!; [done | apply deliver_all_calls | apply deliver_all_service
              | apply deliver_all_transport].
Qed.

(** The scenario of C7: the subscriber registered first throws, the one
    registered second still sees the event. *)
Lemma delivery_after_a_throwing_handler :
  let w' := (notifyListeners CONNECT_ERROR Scenario.timed_out
               Scenario.connecting_channel).2 in
  (notifyListeners CONNECT_ERROR Scenario.timed_out
     Scenario.connecting_channel).1 = Normal tt ∧
  calls w' = [("connect_error", 2); ("connect_error", 1)] ∧
  app w' = 1 ∧
  length (console w') = 1.
Proof. vm_compute. split_and!; done. Qed.

End ChannelClaims.

(* ===================================================================== *)
(** * The scenarios, evaluated *)
(* ===================================================================== *)

Section Scenarios.
Import JS.

(** Updates for A, B and again A: two records, the later A in A's slot. *)
Example upsert_scenario :
  Projector.agents
    (Projector.run
       [Projector.EvAgentUpdate Scenario.agentA;
        Projector.EvAgentUpdate Scenario.agentB;
        Projector.EvAgentUpdate Scenario.agentA_again]
       Projector.initial)
  = [Scenario.agentA_again; Scenario.agentB].
Proof. reflexivity. Qed.

(** A handover to the unknown id Z is logged, moves the active pointer to Z,
    and draws nothing; the handover from A to B draws a curve. *)
Example unknown_handover_scenario :
  let s :=
    Projector.run
      [Projector.EvAgentUpdate Scenario.agentA;
       Projector.EvAgentUpdate Scenario.agentB;
       Projector.EvAgentHandover Scenario.handoverAB;
       Projector.EvAgentHandover Scenario.handoverAZ]
      Projector.initial in
  Projector.connections s = [Scenario.handoverAB; Scenario.handoverAZ] ∧
  Projector.activeAgent s = Some "Z" ∧
  ∃ g, Layout.renderConnections (Some Scenario.svg_600_400)
         (Projector.agents s) (Projector.activeAgent s)
         (Projector.recentConnections s)
       = Normal [Some (Layout.Curve g); None].
Proof.
  cbn zeta. split_and!; [reflexivity | reflexivity |].
  unfold Layout.renderConnections, Layout.renderConnectionsAt, array_map.
  change (Projector.recentConnections _)
    with [Scenario.handoverAB; Scenario.handoverAZ].
  cbn [map_from Layout.renderConnection].
  assert (Layout.read (Layout.calculatePositions (Some Scenario.svg_600_400)
            [Scenario.agentA; Scenario.agentB]) "Z" = Layout.Undefined) as HZ.
  { apply read_ordinary.
    - apply calculatePositions_absent. apply (bool_decide_unpack _).
      by vm_compute.
    - split_and!; [|done|done]. apply (bool_decide_unpack _). by vm_compute. }
  assert (∃ pa, Layout.read (Layout.calculatePositions (Some Scenario.svg_600_400)
            [Scenario.agentA; Scenario.agentB]) "A" = Layout.Position pa)
    as [pa HA].
  { eexists. apply read_stored. change "A" with (id Scenario.agentA).
    by rewrite (calculatePositions_last_wins _ [Scenario.agentA; Scenario.agentB]
               0 Scenario.agentA eq_refl) by later_ids. }
  assert (∃ pb, Layout.read (Layout.calculatePositions (Some Scenario.svg_600_400)
            [Scenario.agentA; Scenario.agentB]) "B" = Layout.Position pb)
    as [pb HB].
  { eexists. apply read_stored. change "B" with (id Scenario.agentB).
    by rewrite (calculatePositions_last_wins _ [Scenario.agentA; Scenario.agentB]
               1 Scenario.agentB eq_refl) by later_ids. }
  change (Projector.agents _) with [Scenario.agentA; Scenario.agentB].
  unfold Layout.renderConnection.
  change (from Scenario.handoverAB) with "A".
  change (to Scenario.handoverAB) with "B".
  change (from Scenario.handoverAZ) with "A".
  change (to Scenario.handoverAZ) with "Z".
  rewrite HA, HB, HZ. eexists. reflexivity.
Qed.

(** The agents query is answered with status 500 and a JSON error body: the
    bootstrap logs nothing, leaves the agent list alone and installs the
    messages and the handovers. *)
Example http_error_scenario :
  Bootstrap.ok 500 = false ∧
  Bootstrap.fetchData Scenario.erroring_server Bootstrap.quiet
    Scenario.before_bootstrap
  = (Normal tt,
     {| Bootstrap.snap :=
          {| Projector.agents := [Scenario.agentX];
             Projector.connections := [Scenario.handoverAB];
             Projector.activeAgent := None;
             Projector.messages := [Scenario.hello];
             Projector.isConnected := true |};
        Bootstrap.console := [] |}).
Proof. split; reflexivity. Qed.

End Scenarios.

(* ===================================================================== *)
(** * State Projector: further properties *)
(* ===================================================================== *)

Section ProjectorMore.
Import Projector.

Lemma ids_upsert_prefix (d : Agent) (l : list Agent) :
  (id <$> l) `prefix_of` (id <$> upsert d l).
Proof.
  rewrite ids_upsert. destruct (decide _); [done|]. by apply prefix_app_r.
Qed.

Lemma slice_last_length {A} (n : nat) (l : list A) :
  length (slice_last n l) = (n `min` length l)%nat.
Proof. unfold slice_last. rewrite length_drop. lia. Qed.

Lemma slice_last_suffix {A} (n : nat) (l : list A) :
  slice_last n l `suffix_of` l.
Proof. unfold slice_last. apply suffix_drop. Qed.

Lemma slice_last_all {A} (n : nat) (l : list A) :
  (length l ≤ n)%nat → slice_last n l = l.
Proof.
  intros Hle. unfold slice_last.
  replace (length l - n)%nat with 0%nat by lia. done.
Qed.

Lemma slice_last_snoc {A} (n : nat) (l : list A) (a : A) :
  last (slice_last (S n) (l ++ [a])) = Some a.
Proof.
  unfold slice_last. rewrite length_app. cbn [length].
  replace (length l + 1 - S n)%nat with (length l - n)%nat by lia.
  rewrite drop_app_le by lia. apply last_snoc.
Qed.

(** X1.  A repeated agent-update is harmless: handling the same update a
    second time changes nothing, whatever the agent list held before (also
    when it held several records with that id). *)
Theorem agent_update_is_idempotent (data : Agent) (s : snapshot) :
  upsert data (upsert data (agents s)) = upsert data (agents s) ∧
  handle (EvAgentUpdate data) (handle (EvAgentUpdate data) s)
  = handle (EvAgentUpdate data) s.
Proof.
  assert (∀ l, upsert data (upsert data l) = upsert data l) as Hidem.
  { induction l as [|a l IH].
    - rewrite upsert_nil, upsert_cons. by rewrite bool_decide_eq_true_2.
    - rewrite upsert_cons.
      destruct (bool_decide_reflect (id a = id data)) as [E|E].
      + rewrite upsert_cons. by rewrite bool_decide_eq_true_2.
      + rewrite upsert_cons, bool_decide_eq_false_2 by done. by rewrite IH. }
  split; [apply Hidem|].
  destruct s. unfold handle, setAgents.
  cbn [agents connections activeAgent messages isConnected].
  by rewrite Hidem.
Qed.

(** X2.  Socket events never remove or reorder agents: run from any
    snapshot, the ids stored before are a prefix of the ids stored after,
    and the list grows by at most the number of agent-update events. *)
Theorem agents_are_never_removed (evs : list live_event) (s : snapshot) :
  (id <$> agents s) `prefix_of` (id <$> agents (run evs s)) ∧
  (length (agents s) ≤ length (agents (run evs s))
    ≤ length (agents s) + length (updates_of evs))%nat.
Proof.
  rewrite agents_run. generalize (agents s) as l.
  induction (updates_of evs) as [|d ups IH]; intros l.
  - cbn. split; [done | lia].
  - cbn [foldl length]. destruct (IH (upsert d l)) as [Hpre Hlen].
    assert (length l ≤ length (upsert d l) ≤ length l + 1)%nat as Hstep.
    { pose proof (f_equal length (ids_upsert d l)) as Hl.
      rewrite !length_fmap in Hl. destruct (decide _).
      - rewrite length_fmap in Hl. lia.
      - rewrite length_app, length_fmap in Hl. cbn in Hl. lia. }
    split; [|lia].
    etrans; [apply (ids_upsert_prefix d l) | exact Hpre].
Qed.

(** X3.  Pairwise distinct ids are an invariant of event handling: if no
    two stored agents share an id (as after a bootstrap from a mapping keyed
    by id), no run of socket events makes two share one. *)
Theorem distinct_ids_are_preserved (evs : list live_event) (s : snapshot) :
  NoDup (id <$> agents s) → NoDup (id <$> agents (run evs s)).
Proof.
  rewrite agents_run. generalize (agents s) as l.
  induction (updates_of evs) as [|d ups IH]; intros l Hnd; [done|].
  cbn [foldl]. apply IH. by apply NoDup_ids_upsert.
Qed.

Lemma distinct_ids_are_preserved_witness :
  NoDup (id <$> agents
           (run [EvAgentUpdate Scenario.agentA_again;
                 EvAgentUpdate Scenario.agentC]
              (setAgents (λ _, [Scenario.agentA; Scenario.agentB]) initial))).
Proof.
  apply (distinct_ids_are_preserved
           [EvAgentUpdate Scenario.agentA_again; EvAgentUpdate Scenario.agentC]
           (setAgents (λ _, [Scenario.agentA; Scenario.agentB]) initial)).
  apply (bool_decide_unpack _). vm_compute. exact I.
Defined.

(** X4.  The windows the component renders from: at most the last 10
    handovers and the last 5 messages, always a suffix of the full log and
    the whole log while it is that short; a handover or message just
    handled is always the last entry of its window. *)
Theorem recent_windows (s : snapshot) :
  (length (recentConnections s) = (10 `min` length (connections s))%nat ∧
   recentConnections s `suffix_of` connections s ∧
   ((length (connections s) ≤ 10)%nat →
    recentConnections s = connections s) ∧
   ∀ h, last (recentConnections (handle (EvAgentHandover h) s)) = Some h) ∧
  (length (recentMessages s) = (5 `min` length (messages s))%nat ∧
   recentMessages s `suffix_of` messages s ∧
   ((length (messages s) ≤ 5)%nat → recentMessages s = messages s) ∧
   ∀ m, last (recentMessages (handle (EvAgentMessage m) s)) = Some m ∧
        last (recentMessages (handle (EvAgentThinking m) s)) = Some m).
Proof.
  unfold recentConnections, recentMessages. split; split_and!.
  - apply slice_last_length.
  - apply slice_last_suffix.
  - apply slice_last_all.
  - intros h. cbn [handle connections setActiveAgent setConnections].
    apply slice_last_snoc.
  - apply slice_last_length.
  - apply slice_last_suffix.
  - apply slice_last_all.
  - intros m. cbn [handle messages setActiveAgent setMessages].
    split; apply slice_last_snoc.
Qed.

(** X5.  The sender label of the activity feed follows the agent list: in
    a snapshot built from socket events, a message is labelled with the
    name in the last update received for its agent id, and with the bare
    agent id when no update for that id was received or the name is empty. *)
Theorem sender_label_follows_updates (evs : list live_event) (m : AgentMessage) :
  senderLabel (run evs initial) m =
  match last_update (agent_id m) (updates_of evs) with
  | Some a => if bool_decide (name a = "") then agent_id m else name a
  | None => agent_id m
  end.
Proof.
  unfold senderLabel. rewrite agents_run. cbn [agents initial].
  destruct (upsert_fold_invariant (updates_of evs)) as [_ Hby].
  cbn zeta in Hby. rewrite Hby. by destruct (last_update _ _).
Qed.

End ProjectorMore.

(* ===================================================================== *)
(** * Bootstrap: further properties *)
(* ===================================================================== *)

Section BootstrapMore.
Import JS Projector Bootstrap.



(** X7.  Whatever the three queries do (answer with or without field, or
    fail) and whatever arrives meanwhile, [fetchData] returns normally; and
    by itself, with no socket event in between, it never touches the
    active-agent pointer or the connected flag. *)
Theorem bootstrap_never_throws (srv : server) (sch : schedule) (w : world) :
  (∃ w', fetchData srv sch w = (Normal tt, w')) ∧
  activeAgent (snap (fetchData srv quiet w).2) = activeAgent (snap w) ∧
  isConnected (snap (fetchData srv quiet w).2) = isConnected (snap w).
Proof.
  destruct srv as [[ra|[fa|]] [rm|[fm|]] [rh|[fh|]]], w as [s c];
    (split; [eexists; reflexivity | split; reflexivity]).
Qed.

End BootstrapMore.

(* ===================================================================== *)
(** * Layout Projector: further properties *)
(* ===================================================================== *)

Section LayoutMore.
Import JS Layout.
Local Open Scope R_scope.

(** Among the records carrying a given id there is a last one. *)
Lemma last_index_with_id (key : string) (l : list Agent) :
  key ∈ id <$> l →
  ∃ i a, l !! i = Some a ∧ id a = key ∧
         ∀ j b, l !! j = Some b → (i < j)%nat → id b ≠ id a.
Proof.
  induction l as [|c l IH]; intros Hin; [by apply elem_of_nil in Hin|].
  destruct (decide (key ∈ id <$> l)) as [Hl|Hl].
  - destruct (IH Hl) as (i & a & Hi & Ha & Hlater).
    exists (S i), a. split_and!; [done | done |].
    intros [|j] b Hj Hlt; [lia|]. apply (Hlater j b Hj). lia.
  - cbn in Hin. apply elem_of_cons in Hin as [->|Hin]; [|done].
    exists 0%nat, c. split_and!; [done | done |].
    intros [|j] b Hj Hlt; [lia|]. cbn in Hj. intros E. apply Hl.
    rewrite <- E. apply list_elem_of_fmap_2. by eapply list_elem_of_lookup_2.
Qed.

(** Every entry of the position map is the circle position of some index
    carrying its key. *)
Lemma calculatePositions_entry (svgRef : option SVGElement)
    (agents : list Agent) (key : string) (p : point) :
  calculatePositions svgRef agents !! key = Some p →
  ∃ i a, agents !! i = Some a ∧ id a = key ∧
         p = on_circle (width svgRef) (height svgRef) (length agents) i.
Proof.
  intros Hp. destruct (decide (key ∈ id <$> agents)) as [Hin|Hout].
  - destruct (last_index_with_id key agents Hin) as (i & a & Hi & Ha & Hlater).
    exists i, a. split_and!; [done | done |].
    rewrite <- Ha, (calculatePositions_last_wins _ _ _ _ Hi Hlater) in Hp.
    by injection Hp.
  - by rewrite calculatePositions_absent in Hp.
Qed.

Lemma calculatePositions_is_Some (svgRef : option SVGElement)
    (agents : list Agent) (key : string) :
  is_Some (calculatePositions svgRef agents !! key) ↔ key ∈ id <$> agents.
Proof.
  split.
  - intros [p Hp]. destruct (calculatePositions_entry _ _ _ _ Hp)
      as (i & a & Hi & <- & _).
    apply list_elem_of_fmap_2. by eapply list_elem_of_lookup_2.
  - intros Hin.
    destruct (last_index_with_id key agents Hin) as (i & a & Hi & <- & Hlater).
    rewrite (calculatePositions_last_wins _ _ _ _ Hi Hlater). by eexists.
Qed.

(** The effective width and height are never zero. *)
Lemma or_number_nonzero (v : option Z) (d : Z) : d ≠ 0%Z → or_number v d ≠ 0%Z.
Proof.
  intros Hd. unfold or_number. destruct v as [n|]; [|done].
  destruct (Z.eqb_spec n 0); done.
Qed.

Lemma radius_nonzero (svgRef : option SVGElement) :
  Rmin (width svgRef) (height svgRef) ≠ 0.
Proof.
  assert (width svgRef ≠ 0) as Hw.
  { unfold width. apply not_0_IZR. by apply or_number_nonzero. }
  assert (height svgRef ≠ 0) as Hh.
  { unfold height. apply not_0_IZR. by apply or_number_nonzero. }
  unfold Rmin. by destruct (Rle_dec _ _).
Qed.

Lemma on_circle_dist2 (W H : R) (N i : nat) :
  dist2 (on_circle W H N i) {| x := W / 2; y := H / 2 |}
  = (0.35 * Rmin W H) * (0.35 * Rmin W H).
Proof.
  unfold dist2, on_circle. cbn [x y].
  set (t := INR i / INR N * (2 * PI)). set (r := 0.35 * Rmin W H).
  pose proof (sin2_cos2 t) as Hsc. unfold Rsqr in Hsc.
  replace (W / 2 + r * cos t - W / 2) with (r * cos t) by ring.
  replace (H / 2 + r * sin t - H / 2) with (r * sin t) by ring.
  replace (r * cos t * (r * cos t) + r * sin t * (r * sin t))
    with (r * r * (sin t * sin t + cos t * cos t)) by ring.
  rewrite Hsc. ring.
Qed.

Lemma on_circle_inside (W H : R) (N i : nat) :
  0 < W → 0 < H →
  0 < x (on_circle W H N i) < W ∧ 0 < y (on_circle W H N i) < H.
Proof.
  intros HW HH. unfold on_circle. cbn [x y].
  set (t := INR i / INR N * (2 * PI)).
  pose proof (COS_bound t) as [Hc1 Hc2]. pose proof (SIN_bound t) as [Hs1 Hs2].
  pose proof (Rmin_l W H) as Hl. pose proof (Rmin_r W H) as Hr.
  assert (0 < Rmin W H) as Hpos by (apply Rmin_glb_lt; lra).
  split; nra.
Qed.

(** X8.  Every position the layout stores lies on the circle of radius
    0.35·min(W, H) around the centre (W/2, H/2), W and H being the effective
    width and height; for positive W and H it lies strictly inside the
    viewport. *)
Theorem positions_are_on_the_circle (svgRef : option SVGElement)
    (agents : list Agent) (key : string) (p : point) :
  calculatePositions svgRef agents !! key = Some p →
  dist2 p {| x := width svgRef / 2; y := height svgRef / 2 |}
  = (0.35 * Rmin (width svgRef) (height svgRef))
    * (0.35 * Rmin (width svgRef) (height svgRef)) ∧
  (0 < width svgRef → 0 < height svgRef →
   0 < x p < width svgRef ∧ 0 < y p < height svgRef).
Proof.
  intros Hp.
  destruct (calculatePositions_entry _ _ _ _ Hp) as (i & a & _ & _ & ->).
  split; [apply on_circle_dist2 | apply on_circle_inside].
Qed.

Lemma positions_are_on_the_circle_witness :
  ∃ p, calculatePositions None [Scenario.agentA; Scenario.agentB] !! "B" = Some p ∧
       dist2 p {| x := 600 / 2; y := 400 / 2 |}
       = (0.35 * Rmin 600 400) * (0.35 * Rmin 600 400).
Proof.
  exists (on_circle 600 400 2 1).
  assert (calculatePositions None [Scenario.agentA; Scenario.agentB] !! "B"
          = Some (on_circle 600 400 2 1)) as Hp.
  { change "B" with (id Scenario.agentB).
    rewrite (calculatePositions_last_wins _ [Scenario.agentA; Scenario.agentB]
               1 Scenario.agentB eq_refl) by later_ids.
    reflexivity. }
  split; [exact Hp|].
  exact (proj1 (positions_are_on_the_circle None
                  [Scenario.agentA; Scenario.agentB] "B" _ Hp)).
Defined.

(** What the position object answers under ids of agents and under
    inherited names. *)
Lemma read_agent_id (svgRef : option SVGElement) (agents : list Agent)
    (key : string) :
  key ∈ id <$> agents →
  ∃ p, read (calculatePositions svgRef agents) key = Position p.
Proof.
  intros [p Hp]%(calculatePositions_is_Some svgRef). exists p.
  by apply read_stored.
Qed.

Lemma read_truthy_cases (positions : gmap string point) (key : string) :
  member_truthy (read positions key) = true →
  is_Some (positions !! key) ∨ key ∈ Object_prototype ∨
  (is_Some (positions !! "__proto__") ∧ (key = "x" ∨ key = "y")).
Proof.
  unfold read. destruct (positions !! key) as [p|]; [left; by eexists|].
  destruct (bool_decide_reflect (key ∈ Object_prototype)) as [Hin|Hout];
    [by right; left|].
  destruct (positions !! "__proto__") as [p|]; [|done].
  destruct (bool_decide_reflect (key = "x")) as [->|Hx];
    [intros _; right; right; split; [by eexists | by left]|].
  destruct (bool_decide_reflect (key = "y")) as [->|Hy];
    [intros _; right; right; split; [by eexists | by right]|].
  done.
Qed.

(** X9.  What [positions[key]] is on the object computed for a list of
    agents: a stored position exactly for the ids of the agents; for any
    other key a member inherited from [Object.prototype] when the key names
    one, and [undefined] when the key is an ordinary name, or when it names
    no such member and no agent has the id ["__proto__"].  So the lookup is
    truthy only for an agent's id, an inherited name, or the names [x] and
    [y] below a position installed as prototype. *)
Theorem lookup_in_the_position_object (svgRef : option SVGElement)
    (agents : list Agent) (key : string) :
  let positions := calculatePositions svgRef agents in
  ((∃ p, read positions key = Position p) ↔ key ∈ id <$> agents) ∧
  (key ∉ id <$> agents → key ∈ Object_prototype →
   read positions key = Builtin) ∧
  (key ∉ id <$> agents → ordinary key → read positions key = Undefined) ∧
  (key ∉ id <$> agents → key ∉ Object_prototype →
   "__proto__" ∉ id <$> agents → read positions key = Undefined) ∧
  (member_truthy (read positions key) = true →
   key ∈ id <$> agents ∨ key ∈ Object_prototype ∨
   ("__proto__" ∈ id <$> agents ∧ (key = "x" ∨ key = "y"))).
Proof.
  cbn zeta. split_and!.
  - split; [|apply read_agent_id].
    intros [p Hp%read_Position]. apply (calculatePositions_is_Some svgRef).
    by eexists.
  - intros Hout Hin. apply read_inherited; [|done].
    by apply calculatePositions_absent.
  - intros Hout Hord. apply read_ordinary; [|done].
    by apply calculatePositions_absent.
  - intros Hout Hnot Hproto. unfold read.
    rewrite (calculatePositions_absent _ _ _ Hout).
    rewrite bool_decide_eq_false_2 by done.
    by rewrite (calculatePositions_absent _ _ _ Hproto).
  - intros [H|[H|[H Hxy]]]%read_truthy_cases.
    + left. by apply (calculatePositions_is_Some svgRef).
    + by right; left.
    + right; right. split; [|done]. by apply (calculatePositions_is_Some svgRef).
Qed.

Lemma lookup_in_the_position_object_witness :
  read (calculatePositions None [Scenario.agentA]) "constructor" = Builtin ∧
  read (calculatePositions None [Scenario.agentA]) "Z" = Undefined.
Proof.
  destruct (lookup_in_the_position_object None [Scenario.agentA] "constructor")
    as (_ & Hbuiltin & _).
  destruct (lookup_in_the_position_object None [Scenario.agentA] "Z")
    as (_ & _ & Hundefined & _).
  split.
  - apply Hbuiltin; apply (bool_decide_unpack _); vm_compute; exact I.
  - apply Hundefined.
    + apply (bool_decide_unpack _). vm_compute. exact I.
    + split_and!; [|discriminate|discriminate].
      apply (bool_decide_unpack _). vm_compute. exact I.
Defined.

(** The slots of [renderConnections], by the kind of the two ids. *)
Lemma connector_slots (svgRef : option SVGElement)
    (agents : list Agent) (activeAgent : option string)
    (connections : list AgentHandover) :
  ∃ out,
    renderConnections svgRef agents activeAgent connections = Normal out ∧
    length out = length connections ∧
    ∀ i c, connections !! i = Some c →
      (from c ∈ id <$> agents → to c ∈ id <$> agents →
       ∃ g, out !! i = Some (Some (Curve g))) ∧
      (∀ g, out !! i = Some (Some (Curve g)) →
         from c ∈ id <$> agents ∧ to c ∈ id <$> agents) ∧
      (((from c ∉ id <$> agents) ∧ ordinary (from c)) ∨
       ((to c ∉ id <$> agents) ∧ ordinary (to c)) → out !! i = Some None) ∧
      (from c ∈ id <$> agents ∨ from c ∈ Object_prototype →
       to c ∈ id <$> agents ∨ to c ∈ Object_prototype →
       from c ∉ id <$> agents ∨ to c ∉ id <$> agents →
       ∃ m, out !! i = Some (Some (NotANumber m))).
Proof.
  set (positions := calculatePositions svgRef agents).
  destruct (renderConnectionsAt_slots positions agents activeAgent connections)
    as (out & Hout & Hlen & Hat).
  exists out. split_and!; [exact Hout | exact Hlen |].
  intros i c Hi. destruct (Hat i c Hi) as (r & Hr & Hk).
  destruct (renderConnection_total positions agents activeAgent c i)
    as (r' & Hr' & Hnone & Hcurve & Hback & Hsome).
  rewrite Hr' in Hk. injection Hk as <-.
  assert (∀ key, key ∈ id <$> agents ∨ key ∈ Object_prototype →
                 member_truthy (read positions key) = true) as Htruthy.
  { intros key Hkey.
    destruct (decide (key ∈ id <$> agents)) as [Hin|Hout'].
    - destruct (read_agent_id svgRef agents key Hin) as [p Hp].
      unfold positions. by rewrite Hp.
    - destruct Hkey as [?|Hproto]; [done|]. unfold positions.
      rewrite read_inherited; [done | by apply calculatePositions_absent | done]. }
  split_and!.
  - intros Hfrom Hto.
    destruct Hcurve as [g ->]; [by apply calculatePositions_is_Some..|].
    by exists g.
  - intros g Hg. rewrite Hr in Hg. injection Hg as ->.
    destruct (Hback g eq_refl) as [Hf Ht].
    split; by apply (calculatePositions_is_Some svgRef).
  - intros Hmissing. rewrite Hr, Hnone; [done|].
    destruct Hmissing as [[H Ho]|[H Ho]]; [left | right];
      unfold positions;
      (rewrite read_ordinary; [done | by apply calculatePositions_absent | done]).
  - intros Hfrom Hto Hnot.
    destruct (Hsome (Htruthy _ Hfrom) (Htruthy _ Hto)) as [[g ->]|[m ->]];
      [|by exists m].
    destruct (Hback g eq_refl) as [Hf Ht].
    apply (calculatePositions_is_Some svgRef) in Hf, Ht.
    by destruct Hnot.
Qed.

(** X10.  What a handover gets, by the kind of its two ids.  When both
    belong to agents of the list the component was given, its entry is a
    curve, and only then.  When one of them belongs to no agent and is an
    ordinary name, the entry is [null].  When each is an agent's id or a name
    inherited from [Object.prototype], and not both are agents' ids, the
    guard lets the handover through and the entry is an element without
    numbers. *)
Theorem connector_by_kind_of_id (svgRef : option SVGElement)
    (agents : list Agent) (activeAgent : option string)
    (connections : list AgentHandover) :
  ∃ out,
    renderConnections svgRef agents activeAgent connections = Normal out ∧
    ∀ i c, connections !! i = Some c →
      (from c ∈ id <$> agents → to c ∈ id <$> agents →
       ∃ g, out !! i = Some (Some (Curve g))) ∧
      (∀ g, out !! i = Some (Some (Curve g)) →
         from c ∈ id <$> agents ∧ to c ∈ id <$> agents) ∧
      (((from c ∉ id <$> agents) ∧ ordinary (from c)) ∨
       ((to c ∉ id <$> agents) ∧ ordinary (to c)) → out !! i = Some None) ∧
      (from c ∈ id <$> agents ∨ from c ∈ Object_prototype →
       to c ∈ id <$> agents ∨ to c ∈ Object_prototype →
       from c ∉ id <$> agents ∨ to c ∉ id <$> agents →
       ∃ m, out !! i = Some (Some (NotANumber m))).
Proof.
  destruct (connector_slots svgRef agents activeAgent connections)
    as (out & Hout & _ & Hslots).
  exists out. split; [exact Hout | exact Hslots].
Qed.

Lemma connector_by_kind_of_id_witness :
  ∃ out m,
    renderConnections None [Scenario.agentA] None
      [Scenario.handover_from_constructor] = Normal out ∧
    out !! 0%nat = Some (Some (NotANumber m)).
Proof.
  destruct (connector_by_kind_of_id None [Scenario.agentA] None
              [Scenario.handover_from_constructor]) as (out & Hout & Hslots).
  destruct (Hslots 0%nat Scenario.handover_from_constructor eq_refl)
    as (_ & _ & _ & Helement).
  destruct Helement as [m Hm].
  - right. apply (bool_decide_unpack _). vm_compute. exact I.
  - left. apply (bool_decide_unpack _). vm_compute. exact I.
  - left. apply (bool_decide_unpack _). vm_compute. exact I.
  - exists out, m. split; [exact Hout | exact Hm].
Defined.

(** X11.  The geometry of a drawn connector: the curve runs from the
    position of the from-id to the position of the to-id; its control point
    is offset from the midpoint at a right angle to the chord, by 0.3 of the
    chord's length; a non-empty annotation is anchored 0.7 of the way from
    the midpoint to the control point; and the control point of the reverse
    handover is the mirror image about the midpoint, so the two curves bow
    to opposite sides. *)
Theorem connector_geometry (positions : gmap string point) (agents : list Agent)
    (activeAgent : option string) (c back : AgentHandover) (i j : nat)
    (p q : point) :
  positions !! from c = Some p → positions !! to c = Some q →
  from back = to c → to back = from c →
  ∃ g g',
    renderConnection positions agents activeAgent c i
    = Normal (Some (Curve g)) ∧
    renderConnection positions agents activeAgent back j
    = Normal (Some (Curve g')) ∧
    path_from g = p ∧ path_to g = q ∧
    let m := midpoint p q in
    (x (path_control g) - x m) * (x q - x p)
      + (y (path_control g) - y m) * (y q - y p) = 0 ∧
    dist2 (path_control g) m = 0.3 * 0.3 * dist2 p q ∧
    (∀ text anchor, label g = Some (text, anchor) →
       handover_message c = Some text ∧ text ≠ "" ∧
       x anchor - x m = 0.7 * (x (path_control g) - x m) ∧
       y anchor - y m = 0.7 * (y (path_control g) - y m)) ∧
    x (path_control g') - x m = - (x (path_control g) - x m) ∧
    y (path_control g') - y m = - (y (path_control g) - y m).
Proof.
  intros Hp Hq Hbf Hbt. unfold renderConnection.
  rewrite Hbf, Hbt, (read_stored _ _ _ Hp), (read_stored _ _ _ Hq).
  cbn [member_truthy negb orb member_prop cbind].
  eexists _, _. split; [reflexivity|]. split; [reflexivity|].
  destruct p as [px py], q as [qx qy].
  cbn [path_from path_to path_control label x y midpoint dist2].
  split_and!; try done; try lra.
  { unfold dist2, midpoint. cbn [x y]. field. }
  intros text anchor Hlabel.
  destruct (handover_message c) as [t|]; [|done].
  destruct (bool_decide_reflect (t = "")) as [E|E]; [done|].
  injection Hlabel as <- <-. cbn [x y]. split_and!; [done | done | lra | lra].
Qed.

Lemma connector_geometry_witness :
  ∃ g, renderConnection
         {[ "A" := {| x := 0; y := 0 |}; "B" := {| x := 10; y := 0 |} ]}
         [] None Scenario.handoverAB 0 = Normal (Some (Curve g)) ∧
       path_from g = {| x := 0; y := 0 |} ∧ path_to g = {| x := 10; y := 0 |}.
Proof.
  set (positions :=
         ({[ "A" := {| x := 0; y := 0 |}; "B" := {| x := 10; y := 0 |} ]}
          : gmap string point)).
  assert (positions !! "A" = Some {| x := 0; y := 0 |}) as HA
    by (unfold positions; by simplify_map_eq).
  assert (positions !! "B" = Some {| x := 10; y := 0 |}) as HB
    by (unfold positions; by simplify_map_eq).
  destruct (connector_geometry positions [] None Scenario.handoverAB
              {| from := "B"; to := "A"; handover_message := None;
                 timestamp := 4 |}
              0 0 {| x := 0; y := 0 |} {| x := 10; y := 0 |}
              HA HB eq_refl eq_refl)
    as (g & _ & Hg & _ & Hfrom & Hto & _).
  exists g. split_and!; [exact Hg | exact Hfrom | exact Hto].
Defined.

Lemma renderAgent_total (positions : gmap string point)
    (activeAgent : option string) (agent : Agent) (index : nat) :
  ∃ r, renderAgent positions activeAgent agent index = Normal r ∧
       ∀ p, positions !! id agent = Some p →
            ∃ node, r = Some node ∧ node_key node = id agent ∧
                    centre node = p ∧ fill node = color agent ∧
                    glow node = bool_decide (Some (id agent) = activeAgent).
Proof.
  unfold renderAgent. destruct (positions !! id agent) as [[px py]|];
    cbn [truthy negb prop cbind x y].
  - eexists. split; [reflexivity|]. intros p [= <-]. by eexists.
  - eexists. split; [reflexivity|]. by intros p [=].
Qed.


(** X12.  [renderAgents] never throws and draws every agent of the list:
    one node per record, none of them [null], keyed by the agent's id,
    filled with its colour and centred on the position stored under its id;
    a node glows exactly when its id is the active agent, so with pairwise
    distinct ids at most one node glows. *)
Theorem every_agent_gets_a_node (svgRef : option SVGElement)
    (agents : list Agent) (activeAgent : option string) :
  ∃ out,
    renderAgents svgRef agents activeAgent = Normal out ∧
    length out = length agents ∧
    (∀ i a, agents !! i = Some a →
       ∃ node, out !! i = Some (Some node) ∧
               node_key node = id a ∧
               calculatePositions svgRef agents !! id a = Some (centre node) ∧
               fill node = color a ∧
               glow node = bool_decide (Some (id a) = activeAgent)) ∧
    (NoDup (id <$> agents) →
     ∀ i j ni nj, out !! i = Some (Some ni) → out !! j = Some (Some nj) →
                  glow ni = true → glow nj = true → i = j).
Proof.
  set (positions := calculatePositions svgRef agents).
  destruct (map_from_total (renderAgent positions activeAgent) agents 0)
    as (out & Hout & Hlen & Hat).
  { intros a i. destruct (renderAgent_total positions activeAgent a i)
      as (r & Hr & _). by exists r. }
  assert (∀ i a, agents !! i = Some a →
       ∃ node, out !! i = Some (Some node) ∧
               node_key node = id a ∧
               positions !! id a = Some (centre node) ∧
               fill node = color a ∧
               glow node = bool_decide (Some (id a) = activeAgent)) as Hnodes.
  { intros i a Hi. destruct (Hat i a Hi) as (b & Hb & Hk).
    destruct (renderAgent_total positions activeAgent a (0 + i))
      as (r & Hr & Hsome).
    rewrite Hr in Hk. injection Hk as <-.
    assert (is_Some (positions !! id a)) as [p Hp].
    { apply calculatePositions_is_Some. apply list_elem_of_fmap_2.
      by eapply list_elem_of_lookup_2. }
    destruct (Hsome p Hp) as (node & -> & Hkey & Hc & Hf & Hg).
    exists node. by rewrite Hc. }
  exists out. split_and!; [exact Hout | exact Hlen | exact Hnodes |].
  intros Hnd i j ni nj Hi Hj Hgi Hgj.
  assert (is_Some (agents !! i)) as [a Ha].
  { apply lookup_lt_is_Some. rewrite <- Hlen. by eapply lookup_lt_Some. }
  assert (is_Some (agents !! j)) as [b Hb].
  { apply lookup_lt_is_Some. rewrite <- Hlen. by eapply lookup_lt_Some. }
  destruct (Hnodes i a Ha) as (ni' & Hi' & _ & _ & _ & Hgi').
  destruct (Hnodes j b Hb) as (nj' & Hj' & _ & _ & _ & Hgj').
  rewrite Hi in Hi'. injection Hi' as <-.
  rewrite Hj in Hj'. injection Hj' as <-.
  rewrite Hgi in Hgi'. rewrite Hgj in Hgj'.
  symmetry in Hgi', Hgj'.
  apply bool_decide_eq_true in Hgi'. apply bool_decide_eq_true in Hgj'.
  eapply NoDup_lookup; [exact Hnd | |].
  - rewrite list_lookup_fmap, Ha. reflexivity.
  - rewrite list_lookup_fmap, Hb. cbn. f_equal. congruence.
Qed.

Lemma every_agent_gets_a_node_witness :
  ∃ out, renderAgents None [Scenario.agentA; Scenario.agentB] (Some "B")
         = Normal out ∧ length out = 2%nat.
Proof.
  destruct (every_agent_gets_a_node None [Scenario.agentA; Scenario.agentB]
              (Some "B")) as (out & Hout & Hlen & _).
  exists out. split; [exact Hout | exact Hlen].
Defined.

(** The angles of two different indices below N differ by less than a full
    turn, so their points differ. *)
Lemma on_circle_inj_le (W H : R) (N i j : nat) :
  Rmin W H ≠ 0 → (i ≤ j)%nat → (j < N)%nat →
  on_circle W H N i = on_circle W H N j → i = j.
Proof.
  intros Hr Hij HjN E. unfold on_circle in E. injection E as Ex Ey.
  set (ti := INR i / INR N * (2 * PI)) in *.
  set (tj := INR j / INR N * (2 * PI)) in *.
  assert (0.35 * Rmin W H ≠ 0) as Hr' by lra.
  assert (0.35 * Rmin W H * cos ti = 0.35 * Rmin W H * cos tj) as Ex' by lra.
  assert (0.35 * Rmin W H * sin ti = 0.35 * Rmin W H * sin tj) as Ey' by lra.
  assert (cos ti = cos tj) as Hc by (apply (Rmult_eq_reg_l _ _ _ Ex' Hr')).
  assert (sin ti = sin tj) as Hs by (apply (Rmult_eq_reg_l _ _ _ Ey' Hr')).
  pose proof (sin2_cos2 ti) as Hsc. unfold Rsqr in Hsc.
  assert (cos (tj - ti) = 1) as Hcd by (rewrite cos_minus, <- Hc, <- Hs; lra).
  assert (sin (tj - ti) = 0) as Hsd by (rewrite sin_minus, <- Hc, <- Hs; lra).
  destruct (sin_eq_0_0 _ Hsd) as [k Hk].
  pose proof PI_RGT_0 as Hpi.
  assert (0 < INR N) as HN by (apply lt_0_INR; lia).
  assert (INR i <= INR j) as Hle by (by apply le_INR).
  assert (INR j < INR N) as Hlt by (by apply lt_INR).
  pose proof (pos_INR i) as Hi0.
  set (u := (INR j - INR i) / INR N).
  assert (tj - ti = u * (2 * PI)) as Hd by (unfold ti, tj, u; field; lra).
  assert (u * INR N = INR j - INR i) as Hu by (unfold u; field; lra).
  assert (0 <= u < 1) as [Hu0 Hu1].
  { split.
    - unfold u. apply Rmult_le_pos; [lra|]. left. by apply Rinv_0_lt_compat.
    - apply (Rmult_lt_reg_r (INR N)); [done|]. rewrite Hu. lra. }
  assert (IZR k = 2 * u) as Hku.
  { apply (Rmult_eq_reg_r PI); [|lra]. rewrite <- Hk, Hd. ring. }
  assert (k = 0 ∨ k = 1)%Z as [-> | ->].
  { assert (0 <= k)%Z by (apply le_IZR; lra).
    assert (k < 2)%Z by (apply lt_IZR; lra). lia. }
  - assert (u = 0) as Hu00 by lra. rewrite Hu00 in Hu.
    apply INR_eq. lra.
  - exfalso. rewrite Hk in Hcd. rewrite Rmult_1_l, cos_PI in Hcd. lra.
Qed.

Lemma on_circle_inj (W H : R) (N i j : nat) :
  Rmin W H ≠ 0 → (i < N)%nat → (j < N)%nat →
  on_circle W H N i = on_circle W H N j → i = j.
Proof.
  intros Hr Hi Hj E. destruct (Nat.le_gt_cases i j) as [Hle|Hgt].
  - by apply (on_circle_inj_le W H N i j).
  - symmetry. apply (on_circle_inj_le W H N j i); [done | lia | done | done].
Qed.

(** X13.  No two agents share a position: for agents with pairwise distinct
    ids, the records at two different indices are stored at two different
    points, in every viewport (a zero width or height falls back to the
    default, so the radius is never zero). *)
Theorem distinct_agents_get_distinct_positions (svgRef : option SVGElement)
    (agents : list Agent) (i j : nat) (a b : Agent) :
  NoDup (id <$> agents) →
  agents !! i = Some a → agents !! j = Some b → i ≠ j →
  calculatePositions svgRef agents !! id a
  ≠ calculatePositions svgRef agents !! id b.
Proof.
  intros Hnd Hi Hj Hne.
  rewrite (calculatePositions_last_wins _ _ _ _ Hi (NoDup_ids_later _ _ _ Hnd Hi)).
  rewrite (calculatePositions_last_wins _ _ _ _ Hj (NoDup_ids_later _ _ _ Hnd Hj)).
  intros E. apply (inj Some) in E. apply Hne.
  apply (on_circle_inj (width svgRef) (height svgRef) (length agents));
    [apply radius_nonzero | by eapply lookup_lt_Some
     | by eapply lookup_lt_Some | done].
Qed.

Lemma distinct_agents_get_distinct_positions_witness :
  calculatePositions (Some Scenario.svg_0_400)
    [Scenario.agentA; Scenario.agentB] !! "A"
  ≠ calculatePositions (Some Scenario.svg_0_400)
      [Scenario.agentA; Scenario.agentB] !! "B".
Proof.
  apply (distinct_agents_get_distinct_positions (Some Scenario.svg_0_400)
           [Scenario.agentA; Scenario.agentB] 0 1
           Scenario.agentA Scenario.agentB).
  - apply (bool_decide_unpack _). vm_compute. exact I.
  - reflexivity.
  - reflexivity.
  - lia.
Defined.

(** X14.  The State Projector feeds the Layout Projector what it needs:
    whatever events were handled since the empty snapshot, every stored
    agent is given the circle position of its own index. *)
Theorem projected_agents_have_their_own_position (evs : list Projector.live_event)
    (svgRef : option SVGElement) (i : nat) (a : Agent) :
  let agents := Projector.agents (Projector.run evs Projector.initial) in
  agents !! i = Some a →
  calculatePositions svgRef agents !! id a
  = Some (on_circle (width svgRef) (height svgRef) (length agents) i).
Proof.
  cbn zeta. intros Hi. apply calculatePositions_last_wins; [done|].
  apply NoDup_ids_later; [|done].
  rewrite agents_run. cbn [Projector.agents Projector.initial].
  apply (upsert_fold_invariant (Projector.updates_of evs)).
Qed.

Lemma projected_agents_have_their_own_position_witness :
  calculatePositions None
    (Projector.agents
       (Projector.run
          [Projector.EvAgentUpdate Scenario.agentA;
           Projector.EvAgentUpdate Scenario.agentB;
           Projector.EvAgentUpdate Scenario.agentA_again]
          Projector.initial)) !! "B"
  = Some (on_circle 600 400 2 1).
Proof.
  apply (projected_agents_have_their_own_position
           [Projector.EvAgentUpdate Scenario.agentA;
            Projector.EvAgentUpdate Scenario.agentB;
            Projector.EvAgentUpdate Scenario.agentA_again]
           None 1 Scenario.agentB).
  reflexivity.
Defined.

End LayoutMore.

(* ===================================================================== *)
(** * Event Channel: further properties *)
(* ===================================================================== *)

(** Unfold the plumbing of the monad, leaving delivery folded. *)
Ltac step_channel :=
  unfold JS.bind, Channel.print, Channel.perform, Channel.set_service,
    JS.modify, JS.get, JS.ret;
  cbn [Channel.service Channel.app Channel.console Channel.transport
       Channel.calls Channel.socket Channel.reconnectAttempts
       Channel.maxReconnectAttempts Channel.reconnectDelay Channel.listeners
       Channel.connected Channel.url Channel.set_socket Channel.set_connected
       Channel.set_reconnectAttempts Channel.set_listeners].

Section ChannelMore.
Import JS Channel.
Context {App : Type}.
Implicit Types (w : world App) (cb : callback App) (svc : SocketService App).

Lemma event_name_inj (e1 e2 : SocketEvent) :
  event_name e1 = event_name e2 → e1 = e2.
Proof. destruct e1, e2; (done || discriminate). Qed.

Lemma Set_add_idem cb (l : list (callback App)) :
  Set_add cb (Set_add cb l) = Set_add cb l.
Proof.
  unfold Set_add. destruct (existsb _ l) eqn:E; [by rewrite E|].
  rewrite existsb_app. cbn. rewrite bool_decide_eq_true_2 by done.
  by rewrite orb_true_r.
Qed.

Lemma Set_delete_add cb (l : list (callback App)) :
  Set_delete cb (Set_add cb l) = Set_delete cb l.
Proof.
  unfold Set_delete, Set_add. destruct (existsb _ l); [done|].
  rewrite filter_app, filter_cons_False by (intros H; by apply H).
  by rewrite filter_nil, app_nil_r.
Qed.

Lemma Set_delete_fresh cb (l : list (callback App)) :
  ref cb ∉ ref <$> l → Set_delete cb l = l.
Proof.
  intros Hfresh. unfold Set_delete. induction l as [|c l IH]; [done|].
  rewrite filter_cons_True.
  - f_equal. apply IH. intros Hin. apply Hfresh. by right.
  - intros E. apply Hfresh. rewrite <- E. left.
Qed.

Lemma Set_delete_gone cb (l : list (callback App)) :
  ref cb ∉ ref <$> Set_delete cb l.
Proof.
  unfold Set_delete. intros (c & E & Hc)%list_elem_of_fmap.
  apply list_elem_of_filter in Hc as [Hne _]. by apply Hne.
Qed.

Lemma alter_present (f : list (callback App) → list (callback App))
    (k : string) (l : list (callback App)) (m : gmap string (list (callback App))) :
  m !! k = Some l → alter f k m = <[k := f l]> m.
Proof.
  intros E. apply map_eq. intros k'. rewrite lookup_alter, lookup_insert.
  case_decide; subst; by rewrite ?E.
Qed.

Lemma alter_created (f : list (callback App) → list (callback App))
    (k : string) (m : gmap string (list (callback App))) :
  alter f k (<[k := []]> m) = <[k := f []]> m.
Proof.
  rewrite (alter_present f k []) by apply lookup_insert_eq.
  apply insert_insert_eq.
Qed.

(** [on] as one update of the listener map. *)
Lemma on_eq (event : SocketEvent) cb w :
  on event cb w =
  (Normal tt,
   {| service :=
        set_listeners
          (<[event_name event := Set_add cb (registered event (service w))]>
             (listeners (service w)))
          (service w);
      app := app w; console := console w; transport := transport w;
      calls := calls w |}).
Proof.
  unfold on, registered, JS.bind, get, set_service, modify, ret.
  destruct (listeners (service w) !! event_name event) as [l|] eqn:E;
    cbn [service app console transport calls set_listeners listeners default
         socket reconnectAttempts maxReconnectAttempts reconnectDelay
         connected url].
  - by rewrite (alter_present _ _ l).
  - by rewrite alter_created.
Qed.

Lemma registered_insert (event e' : SocketEvent) (l : list (callback App)) svc :
  registered e' (set_listeners (<[event_name event := l]> (listeners svc)) svc)
  = if decide (e' = event) then l else registered e' svc.
Proof.
  unfold registered. cbn [listeners set_listeners]. rewrite lookup_insert.
  destruct (decide (e' = event)) as [->|Hne].
  - by rewrite decide_True.
  - rewrite decide_False; [done|]. intros E. by apply event_name_inj in E.
Qed.

(** [on] as seen through [registered]. *)
Lemma on_registered (event : SocketEvent) cb w :
  ∃ w',
    on event cb w = (Normal tt, w') ∧
    socket (service w') = socket (service w) ∧
    app w' = app w ∧ transport w' = transport w ∧
    ∀ e', registered e' (service w') =
          if decide (e' = event) then Set_add cb (registered e' (service w))
          else registered e' (service w).
Proof.
  rewrite on_eq. eexists. split; [reflexivity|].
  cbn [service app transport]. split_and!; try done.
  intros e'. rewrite registered_insert. by destruct (decide (e' = event)) as [->|].
Qed.

(** [off] as seen through [registered]. *)
Lemma off_registered (event : SocketEvent) cb w :
  ∃ svc',
    off event cb w =
    (Normal tt, {| service := svc'; app := app w; console := console w;
                   transport := transport w; calls := calls w |}) ∧
    socket svc' = socket (service w) ∧
    connected svc' = connected (service w) ∧
    reconnectAttempts svc' = reconnectAttempts (service w) ∧
    ∀ e', registered e' svc' =
          if decide (e' = event) then Set_delete cb (registered e' (service w))
          else registered e' (service w).
Proof.
  unfold off, JS.bind, get, set_service, modify, ret.
  destruct (listeners (service w) !! event_name event) as [l|] eqn:E.
  - eexists. split; [reflexivity|]. split_and!; try done.
    intros e'. unfold registered. cbn [listeners set_listeners].
    rewrite lookup_alter. destruct (decide (e' = event)) as [->|Hne].
    + rewrite decide_True by done. by rewrite E.
    + rewrite decide_False; [done|]. intros Heq. by apply event_name_inj in Heq.
  - exists (service w). split; [by destruct w|]. split_and!; try done.
    intros e'. destruct (decide (e' = event)) as [->|Hne]; [|done].
    unfold registered. by rewrite E.
Qed.

Lemma off_fresh (event : SocketEvent) cb w :
  ref cb ∉ ref <$> registered event (service w) →
  ∃ w',
    off event cb w = (Normal tt, w') ∧
    (∀ e, registered e (service w') = registered e (service w)) ∧
    socket (service w') = socket (service w) ∧
    app w' = app w ∧ transport w' = transport w.
Proof.
  intros Hfresh.
  destruct (off_registered event cb w) as (svc' & Hoff & Hs & _ & _ & Hreg).
  eexists. split; [exact Hoff|]. cbn [service app transport].
  split_and!; try done.
  intros e. rewrite Hreg. destruct (decide (e = event)) as [->|]; [|done].
  by apply Set_delete_fresh.
Qed.

Lemma deliver_all_app (event : SocketEvent) (data : payload)
    (callbacks : list (callback App)) w :
  app (deliver_all event data callbacks w)
  = after_bodies data callbacks (app w).
Proof.
  revert w. induction callbacks as [|cb rest IH]; intros w; [done|].
  cbn [deliver_all after_bodies foldl]. rewrite IH. unfold after_bodies.
  cbn [app]. by destruct (body cb data (app w)) as [[[]|e] a].
Qed.

(** X15.  Listeners are kept in a set: subscribing the same function to the
    same event a second time changes nothing, so it is still called once
    per event. *)
Theorem subscribing_twice_is_subscribing_once (event : SocketEvent) cb w :
  JS.bind (on event cb) (λ _, on event cb) w = on event cb w.
Proof.
  unfold JS.bind. rewrite (on_eq event cb w). rewrite on_eq.
  cbn [service app console transport calls].
  rewrite registered_insert, decide_True by done.
  rewrite Set_add_idem. cbn [listeners set_listeners].
  by rewrite insert_insert_eq.
Qed.

(** X16.  [off] undoes [on]: after subscribing a function and unsubscribing
    it again, the event's listeners are those registered before without that
    function (exactly those registered before when it had not been
    subscribed), the other events' listeners are untouched, and a later
    delivery of the event does not call it. *)
Theorem unsubscribing_undoes_subscribing (event : SocketEvent) cb
    (data : payload) w :
  ∃ w',
    JS.bind (on event cb) (λ _, off event cb) w = (Normal tt, w') ∧
    registered event (service w')
      = Set_delete cb (registered event (service w)) ∧
    (ref cb ∉ ref <$> registered event (service w) →
     registered event (service w') = registered event (service w)) ∧
    (∀ e', e' ≠ event →
           registered e' (service w') = registered e' (service w)) ∧
    (event_name event, ref cb) ∉
      drop (length (calls w)) (calls (notifyListeners event data w').2).
Proof.
  unfold JS.bind. rewrite on_eq.
  match goal with |- context [off event cb ?w1] =>
    destruct (off_registered event cb w1) as (svc' & Hoff & _ & _ & _ & Hreg)
  end.
  rewrite Hoff. cbn [service app console transport calls] in *.
  eexists. split; [reflexivity|]. cbn [service].
  assert (registered event svc' = Set_delete cb (registered event (service w)))
    as Hev.
  { rewrite Hreg, decide_True by done.
    rewrite registered_insert, decide_True by done. apply Set_delete_add. }
  split_and!.
  - exact Hev.
  - intros Hfresh. rewrite Hev. by apply Set_delete_fresh.
  - intros e' Hne. rewrite Hreg, decide_False by done.
    by rewrite registered_insert, decide_False.
  - rewrite notifyListeners_deliver. cbn [snd service].
    rewrite deliver_all_calls. cbn [calls].
    rewrite drop_app_length. rewrite Hev.
    intros (c & [= E] & Hc)%list_elem_of_fmap.
    apply (Set_delete_gone cb (registered event (service w))).
    rewrite E. by apply list_elem_of_fmap_2.
Qed.

Lemma registered_same_listeners (event : SocketEvent) svc svc' :
  listeners svc' = listeners svc → registered event svc' = registered event svc.
Proof. unfold registered. by intros ->. Qed.

(** What the connect event does to the channel. *)
Lemma on_connect_step w :
  ∃ w',
    on_connect w = (Normal tt, w') ∧
    socket (service w') = socket (service w) ∧
    connected (service w') = true ∧
    reconnectAttempts (service w') = 0%nat ∧
    maxReconnectAttempts (service w') = maxReconnectAttempts (service w) ∧
    reconnectDelay (service w') = reconnectDelay (service w) ∧
    listeners (service w') = listeners (service w) ∧
    transport w' = transport w ∧
    calls w' = calls w ++ ((λ cb, (event_name CONNECT, ref cb))
                           <$> registered CONNECT (service w)) ∧
    app w' = after_bodies PNull (registered CONNECT (service w)) (app w).
Proof.
  unfold on_connect. step_channel. rewrite notifyListeners_deliver.
  eexists. split; [reflexivity|].
  rewrite deliver_all_service, deliver_all_transport, deliver_all_calls,
    deliver_all_app.
  cbn [service app console transport calls socket reconnectAttempts
       maxReconnectAttempts reconnectDelay listeners connected].
  split_and!; done.
Qed.

(** What [disconnect] does. *)
Lemma disconnect_step w :
  ∃ w',
    disconnect w = (Normal tt, w') ∧
    socket (service w') = None ∧
    (is_Some (socket (service w)) → connected (service w') = false) ∧
    (socket (service w) = None → w' = w) ∧
    reconnectAttempts (service w') = reconnectAttempts (service w) ∧
    maxReconnectAttempts (service w') = maxReconnectAttempts (service w) ∧
    listeners (service w') = listeners (service w) ∧
    app w' = app w ∧ console w' = console w ∧ calls w' = calls w ∧
    transport w' =
      transport w ++
      match socket (service w) with Some _ => [SocketDisconnect] | None => [] end.
Proof.
  unfold disconnect. step_channel.
  destruct (socket (service w)) as [sk|] eqn:Hsk.
  - eexists. split; [reflexivity|]. cbn. split_and!; try done.
  - exists w. split; [reflexivity|]. rewrite app_nil_r.
    split_and!; try done.
Qed.

(** X17.  Outbound messages are sent only on a connected channel and are
    otherwise dropped with a warning, never queued and never thrown: the
    service is untouched either way.  So an [emit] after [disconnect()], or
    after [connect()] but before the connect event, sends nothing, while an
    [emit] after the connect event of a live socket is the last transport
    call made. *)
Theorem emit_sends_only_when_connected (event : string) (data : payload) w :
  (∃ w',
     emit event data w = (Normal tt, w') ∧
     service w' = service w ∧ app w' = app w ∧ calls w' = calls w ∧
     (connection_state (service w) = Connected →
      transport w' = transport w ++ [SocketEmit event data] ∧
      console w' = console w) ∧
     (connection_state (service w) ≠ Connected →
      transport w' = transport w ∧
      console w' =
        console w ++ [Warn "Socket not connected, cannot emit event:"])) ∧
  (SocketEmit event data ∉
     drop (length (transport w))
       (transport (JS.bind disconnect (λ _, emit event data) w).2)) ∧
  (connected (service w) = false →
   SocketEmit event data ∉
     drop (length (transport w))
       (transport (JS.bind connect (λ _, emit event data) w).2)) ∧
  (is_Some (socket (service w)) →
   last (transport (JS.bind on_connect (λ _, emit event data) w).2)
   = Some (SocketEmit event data)).
Proof.
  split_and!.
  - unfold emit, connection_state. step_channel.
    destruct (socket (service w)) as [sk|], (connected (service w));
      cbn [bool_decide andb];
      try rewrite bool_decide_eq_true_2 by (by eexists);
      try rewrite bool_decide_eq_false_2 by (by intros [? [=]]);
      cbn [andb]; (eexists; split; [reflexivity|]);
      cbn [service app console transport calls];
      (split_and!; [by destruct w | done | done | try done | try done]).
  - unfold JS.bind. destruct (disconnect_step w)
      as (w1 & Hd & Hs & _ & _ & _ & _ & _ & _ & _ & _ & Ht).
    rewrite Hd. unfold emit. step_channel. rewrite Hs.
    rewrite bool_decide_eq_false_2 by (by intros [? [=]]). cbn [andb snd transport].
    rewrite Ht, drop_app_length.
    destruct (socket (service w)); intros Hin.
    + by apply list_elem_of_singleton in Hin.
    + by apply elem_of_nil in Hin.
  - intros Hoff. unfold connect, emit. step_channel.
    destruct (socket (service w)) as [sk|] eqn:Hsk; step_channel;
      rewrite ?Hsk, Hoff, andb_false_r; cbn [snd transport].
    + rewrite drop_ge by lia. by intros ?%elem_of_nil.
    + rewrite drop_app_length. by intros ?%list_elem_of_singleton.
  - intros Hsock. unfold JS.bind.
    destruct (on_connect_step w)
      as (w1 & Hc & Hs & Hcon & _ & _ & _ & _ & _ & _ & _).
    rewrite Hc. unfold emit. step_channel. rewrite Hs, Hcon.
    rewrite bool_decide_eq_true_2 by done. cbn [andb snd transport].
    apply last_snoc.
Qed.

Lemma server_reason_match {A} (r : string) (x y : A) :
  match r with
  | "io server disconnect" => x
  | _ => y
  end = if decide (r = "io server disconnect") then x else y.
Proof.
  do 20 (destruct r as [|[[|] [|] [|] [|] [|] [|] [|] [|]] r];
         try reflexivity).
  destruct r; reflexivity.
Qed.

(** What a disconnect event does to the channel. *)
Lemma on_disconnect_step (reason : string) w :
  ∃ w',
    on_disconnect (PReason reason) w = (Normal tt, w') ∧
    socket (service w') = socket (service w) ∧
    connected (service w') = false ∧
    reconnectAttempts (service w') = reconnectAttempts (service w) ∧
    maxReconnectAttempts (service w') = maxReconnectAttempts (service w) ∧
    listeners (service w') = listeners (service w) ∧
    calls w' = calls w ++ ((λ cb, (event_name DISCONNECT, ref cb))
                           <$> registered DISCONNECT (service w)) ∧
    app w' = after_bodies (PReason reason) (registered DISCONNECT (service w))
               (app w) ∧
    transport w' =
      transport w ++
      if decide (reason = "io server disconnect") then
        match socket (service w) with
        | Some _ => [SetTimeout (backoff (service w))]
        | None => []
        end
      else [].
Proof.
  unfold on_disconnect. step_channel. rewrite notifyListeners_deliver.
  set (w1 := deliver_all _ _ _ _).
  assert (service w1 = set_connected false (service w)) as Hsvc
    by (unfold w1; by rewrite deliver_all_service).
  assert (transport w1 = transport w) as Htr
    by (unfold w1; by rewrite deliver_all_transport).
  assert (calls w1 = calls w ++ ((λ cb, (event_name DISCONNECT, ref cb))
                                 <$> registered DISCONNECT (service w))) as Hcalls
    by (unfold w1; by rewrite deliver_all_calls).
  assert (app w1 = after_bodies (PReason reason)
                     (registered DISCONNECT (service w)) (app w)) as Happ
    by (unfold w1; by rewrite deliver_all_app).
  clearbody w1. destruct w1 as [svc1 app1 con1 tr1 calls1].
  cbn [service transport calls app] in Hsvc, Htr, Hcalls, Happ.
  subst svc1 tr1 calls1 app1.
  rewrite server_reason_match.
  destruct (decide (reason = "io server disconnect")) as [->|Hne].
  - unfold reconnect, backoff. step_channel.
    destruct (socket (service w)) as [sk|] eqn:Hsk.
    + rewrite bool_decide_eq_true_2 by (by eexists). cbn [negb orb].
      eexists. split; [reflexivity|]. cbn. split_and!; done.
    + rewrite bool_decide_eq_false_2 by (by intros [? [=]]). cbn [negb orb].
      eexists. split; [reflexivity|]. cbn. rewrite app_nil_r. split_and!; done.
  - eexists. split; [reflexivity|]. cbn. rewrite app_nil_r. split_and!; done.
Qed.

(** What a connect-error does to the subscribers' state. *)
Lemma on_connect_error_app (error : payload) w :
  app (on_connect_error error w).2
  = after_bodies error (registered CONNECT_ERROR (service w)) (app w).
Proof.
  unfold on_connect_error. step_channel. rewrite notifyListeners_deliver.
  set (w1 := deliver_all _ _ _ _).
  assert (app w1 = after_bodies error (registered CONNECT_ERROR (service w))
                     (app w)) as Happ
    by (unfold w1; by rewrite deliver_all_app).
  clearbody w1. destruct w1 as [svc1 app1 con1 tr1 calls1].
  cbn [app] in Happ. subst app1. step_channel.
  destruct (_ <? _)%nat; [|done].
  unfold disconnect. step_channel. by destruct (socket svc1).
Qed.

(** X18.  Failed attempts are counted in a row: a connect event resets the
    counter, so any number of connect-errors up to the maximum, then a
    successful connect, then as many connect-errors as the maximum, leave
    the channel with its socket, connected, and nothing torn down. *)
Theorem connect_event_resets_the_counter (k : nat) (error : payload)
    (sk : Socket) w :
  socket (service w) = Some sk →
  (reconnectAttempts (service w) + k ≤ maxReconnectAttempts (service w))%nat →
  ∃ w',
    JS.bind (connect_errors k error) (λ _,
    JS.bind on_connect (λ _,
    connect_errors (maxReconnectAttempts (service w)) error)) w
    = (Normal tt, w') ∧
    socket (service w') = Some sk ∧
    connected (service w') = true ∧
    reconnectAttempts (service w') = maxReconnectAttempts (service w) ∧
    transport w' = transport w.
Proof.
  intros Hsk Hle.
  destruct (connect_errors_below k error w sk Hsk Hle)
    as (w1 & H1 & Hs1 & _ & _ & Hm1 & _ & Ht1 & _).
  destruct (on_connect_step w1)
    as (w2 & H2 & Hs2 & Hc2 & Ha2 & Hm2 & _ & _ & Ht2 & _).
  destruct (connect_errors_below (maxReconnectAttempts (service w)) error w2 sk)
    as (w3 & H3 & Hs3 & Hc3 & Ha3 & _ & _ & Ht3 & _).
  { by rewrite Hs2. }
  { rewrite Ha2, Hm2, Hm1. lia. }
  exists w3. unfold JS.bind. rewrite H1, H2, H3.
  split_and!; [done | done | congruence | | congruence].
  rewrite Ha3, Ha2. lia.
Qed.

(** X19.  [disconnect()] does not reset the attempt counter: once the
    counter has reached the maximum and the channel is disconnected, a fresh
    [connect()] followed by a single connect-error (with no connect event in
    between) opens a socket and gives up at once. *)
Theorem counter_survives_disconnect (error : payload) w :
  socket (service w) = None →
  (maxReconnectAttempts (service w) ≤ reconnectAttempts (service w))%nat →
  ∃ w' sk,
    JS.bind connect (λ _, on_connect_error error) w = (Normal tt, w') ∧
    socket (service w') = None ∧
    connection_state (service w') = Disconnected ∧
    reconnectAttempts (service w') = S (reconnectAttempts (service w)) ∧
    transport w' = transport w ++ [IoOpen sk; SocketDisconnect].
Proof.
  intros Hsk Hmax.
  destruct (connect_from_disconnected w Hsk) as (w1 & sk & H1 & Hs1 & Ht1 & _).
  destruct (on_connect_error_step error w1)
    as (w2 & H2 & Ha2 & _ & _ & _ & Hrest).
  assert (reconnectAttempts (service w1) = reconnectAttempts (service w)
          ∧ maxReconnectAttempts (service w1) = maxReconnectAttempts (service w))
    as [Ha1 Hm1].
  { revert H1. unfold connect. step_channel. rewrite Hsk. step_channel.
    by intros [= <-]. }
  rewrite decide_False in Hrest by lia. destruct Hrest as [Hs2 Hdown].
  destruct Hdown as [Hc2 Ht2]; [rewrite Hs1; by eexists|].
  exists w2, sk. unfold JS.bind. rewrite H1, H2.
  split_and!; [done | done | | lia |].
  - unfold connection_state. by rewrite Hs2.
  - rewrite Ht2, Ht1, <- app_assoc. done.
Qed.

(** X20.  [disconnect()] is safe in every state and idempotent: it returns
    normally, leaves the channel disconnected, keeps the listeners, the
    counter and the subscribers' state, calls the transport only when there
    was a socket, and a second call changes nothing.  A reconnect timer that
    fires afterwards makes no transport call, and a late server-disconnect
    event arms no timer. *)
Theorem disconnect_is_safe_and_idempotent w :
  ∃ w',
    disconnect w = (Normal tt, w') ∧
    connection_state (service w') = Disconnected ∧
    listeners (service w') = listeners (service w) ∧
    reconnectAttempts (service w') = reconnectAttempts (service w) ∧
    app w' = app w ∧
    transport w' =
      transport w ++
      match socket (service w) with Some _ => [SocketDisconnect] | None => [] end ∧
    disconnect w' = (Normal tt, w') ∧
    transport (reconnect_timer w').2 = transport w' ∧
    transport (on_disconnect (PReason "io server disconnect") w').2
    = transport w'.
Proof.
  destruct (disconnect_step w)
    as (w1 & H1 & Hs1 & _ & _ & Ha1 & _ & Hl1 & Happ & _ & _ & Ht1).
  exists w1. split_and!; try done.
  - unfold connection_state. by rewrite Hs1.
  - destruct (disconnect_step w1) as (w2 & H2 & _ & _ & Hsame & _).
    rewrite H2. by rewrite (Hsame Hs1).
  - unfold reconnect_timer. step_channel. by rewrite Hs1.
  - destruct (on_disconnect_step "io server disconnect" w1)
      as (w2 & H2 & _ & _ & _ & _ & _ & _ & _ & Ht2).
    rewrite H2. cbn [snd]. rewrite Ht2, Hs1, decide_True by done.
    by rewrite app_nil_r.
Qed.

(** X21.  A disconnect event marks the channel as not connected, keeps the
    socket and the counter, and is forwarded to the disconnect listeners.
    Only the reason "io server disconnect", with a socket in hand, arms a
    reconnect timer, exactly one, with delay
    reconnectDelay · 1.5^reconnectAttempts; straight after a connect event
    the exponent is 0 and the delay is reconnectDelay. *)
Theorem server_disconnect_arms_one_timer (reason : string) w :
  (∃ w',
     on_disconnect (PReason reason) w = (Normal tt, w') ∧
     socket (service w') = socket (service w) ∧
     connected (service w') = false ∧
     reconnectAttempts (service w') = reconnectAttempts (service w) ∧
     calls w' = calls w ++ ((λ cb, (event_name DISCONNECT, ref cb))
                            <$> registered DISCONNECT (service w)) ∧
     transport w' =
       transport w ++
       if decide (reason = "io server disconnect") then
         match socket (service w) with
         | Some _ =>
             [SetTimeout (inject_Z (reconnectDelay (service w))
                          * Qpower (3 # 2)
                              (Z.of_nat (reconnectAttempts (service w))))]
         | None => []
         end
       else []) ∧
  (is_Some (socket (service w)) →
   ∃ delay,
     drop (length (transport w))
       (transport
          (JS.bind on_connect
             (λ _, on_disconnect (PReason "io server disconnect")) w).2)
     = [SetTimeout delay] ∧
     (delay == inject_Z (reconnectDelay (service w)))%Q).
Proof.
  split.
  - destruct (on_disconnect_step reason w)
      as (w' & H & Hs & Hc & Ha & _ & _ & Hcalls & _ & Ht).
    exists w'. split_and!; done.
  - intros [sk Hsk]. unfold JS.bind.
    destruct (on_connect_step w)
      as (w1 & H1 & Hs1 & _ & Ha1 & _ & Hd1 & _ & Ht1 & _).
    destruct (on_disconnect_step "io server disconnect" w1)
      as (w2 & H2 & _ & _ & _ & _ & _ & _ & _ & Ht2).
    rewrite H1, H2. cbn [snd]. rewrite Ht2, Ht1, drop_app_length.
    rewrite decide_True, Hs1, Hsk by done.
    eexists. split; [reflexivity|].
    unfold backoff. rewrite Ha1, Hd1. cbn [Z.of_nat].
    change (Qpower (3 # 2) 0) with 1%Q. apply Qmult_1_r.
Qed.

(** What any transport event does to listeners, calls and subscribers. *)
Lemma socket_handler_step (event : SocketEvent) (data : payload) w :
  ∃ w',
    socket_handler event data w = (Normal tt, w') ∧
    listeners (service w') = listeners (service w) ∧
    calls w' = calls w ++ ((λ cb, (event_name event, ref cb))
                           <$> registered event (service w)) ∧
    app w' = after_bodies (forwarded event data) (registered event (service w))
               (app w) ∧
    (registered event (service w) = [] → app w' = app w).
Proof.
  assert (∀ w', app w' = after_bodies (forwarded event data)
                           (registered event (service w)) (app w) →
                (registered event (service w) = [] → app w' = app w)) as Hnone.
  { intros w' -> ->. done. }
  destruct event; cbn [socket_handler forwarded].
  1: { destruct (on_connect_step w)
         as (w' & H & _ & _ & _ & _ & _ & Hl & _ & Hc & Ha).
       exists w'. split_and!; auto. }
  2: { destruct (on_connect_error_step data w)
         as (w' & H & _ & _ & Hl & Hc & _).
       exists w'. pose proof (on_connect_error_app data w) as Ha.
       rewrite H in Ha. cbn [snd] in Ha. split_and!; auto. }
  1: { destruct data as [| r | | | | |].
       2: { destruct (on_disconnect_step r w)
              as (w' & H & _ & _ & _ & _ & Hl & Hc & Ha & _).
            exists w'. split_and!; auto. }
       all: unfold on_disconnect; step_channel;
         rewrite notifyListeners_deliver; eexists;
         (split; [reflexivity|]);
         rewrite deliver_all_service, deliver_all_calls, deliver_all_app;
         cbn [service app calls]; split_and!; auto;
         unfold registered; cbn [listeners set_connected]; by intros ->. }
  all: rewrite notifyListeners_deliver; eexists; (split; [reflexivity|]);
    rewrite deliver_all_service, deliver_all_calls, deliver_all_app;
    split_and!; auto; by intros ->.
Qed.

(** X22.  The channel only forwards.  Whatever event the transport raises
    and whatever its payload, the socket's handler returns normally, leaves
    the listener table as it was, calls each listener registered for that
    event once, in order, and changes the subscribers' state by nothing but
    those calls; an event without listeners leaves their state untouched. *)
Theorem socket_events_only_forward (event : SocketEvent) (data : payload) w :
  ∃ w',
    socket_handler event data w = (Normal tt, w') ∧
    listeners (service w') = listeners (service w) ∧
    calls w' = calls w ++ ((λ cb, (event_name event, ref cb))
                           <$> registered event (service w)) ∧
    app w' = after_bodies (forwarded event data) (registered event (service w))
               (app w) ∧
    (registered event (service w) = [] → app w' = app w).
Proof. apply socket_handler_step. Qed.

End ChannelMore.

Section ChannelMoreWitnesses.
Import JS Channel.

Lemma emit_sends_only_when_connected_witness :
  SocketEmit "start" PNull ∉
    drop (length (transport Scenario.fresh_channel))
      (transport (JS.bind connect (λ _, emit "start" PNull)
                    Scenario.fresh_channel).2).
Proof.
  apply (proj1 (proj2 (proj2 (emit_sends_only_when_connected
                                "start" PNull Scenario.fresh_channel)))).
  reflexivity.
Defined.

Lemma connect_event_resets_the_counter_witness :
  ∃ w', JS.bind (connect_errors 5 Scenario.timed_out) (λ _,
        JS.bind on_connect (λ _,
        connect_errors 5 Scenario.timed_out)) Scenario.connecting_channel
        = (Normal tt, w') ∧
        connection_state (service w') = Connected.
Proof.
  destruct (connect_event_resets_the_counter 5 Scenario.timed_out
              {| sock_url := "http://localhost:12001"; reconnection := true;
                 reconnectionAttempts := 5; reconnectionDelay := 2000;
                 reconnectionDelayMax := 10000; timeout := 20000 |}
              Scenario.connecting_channel eq_refl)
    as (w' & Hrun & Hs & Hc & _).
  { vm_compute. lia. }
  exists w'. split; [exact Hrun|].
  unfold connection_state. rewrite Hs, Hc. reflexivity.
Defined.

Lemma counter_survives_disconnect_witness :
  ∃ w', JS.bind connect (λ _, on_connect_error Scenario.timed_out)
          Scenario.exhausted_channel = (Normal tt, w') ∧
        connection_state (service w') = Disconnected.
Proof.
  destruct (counter_survives_disconnect Scenario.timed_out
              Scenario.exhausted_channel eq_refl)
    as (w' & sk & Hrun & _ & Hd & _).
  { vm_compute. lia. }
  exists w'. split; [exact Hrun | exact Hd].
Defined.

Lemma server_disconnect_arms_one_timer_witness :
  ∃ delay,
    drop (length (transport Scenario.connecting_channel))
      (transport
         (JS.bind on_connect
            (λ _, on_disconnect (PReason "io server disconnect"))
            Scenario.connecting_channel).2)
    = [SetTimeout delay] ∧ (delay == 2000)%Q.
Proof.
  destruct (proj2 (server_disconnect_arms_one_timer "io server disconnect"
                     Scenario.connecting_channel))
    as (delay & Hd & Heq).
  { eexists. reflexivity. }
  exists delay. split; [exact Hd | exact Heq].
Defined.

End ChannelMoreWitnesses.

(* ===================================================================== *)
(** * AgentNetwork on the Event Channel: mounting, events, clean-up *)
(* ===================================================================== *)

Section NetworkFacts.
Import JS Projector Channel Network.
Implicit Types (w : world Bootstrap.world).

(** One well-typed event, as the component's listeners see it. *)
Lemma component_listeners_handle (r : nat) (event : SocketEvent)
    (data : payload) (a : Bootstrap.world) :
  well_typed (event, data) = true →
  Bootstrap.snap
    (after_bodies (forwarded event data) (component_listeners r event) a)
  = match live_of (event, data) with
    | Some e => handle e (Bootstrap.snap a)
    | None => Bootstrap.snap a
    end.
Proof. destruct event, data; (discriminate || (intros _; reflexivity)). Qed.

Lemma mounted_same_listeners (r : nat) w w' :
  listeners (service w') = listeners (service w) →
  mounted r (service w) → mounted r (service w').
Proof.
  intros Hl Hm event. rewrite <- (Hm event). by apply registered_same_listeners.
Qed.

Lemma receive_mounted (r : nat) (evs : list (SocketEvent * payload)) w :
  mounted r (service w) → forallb well_typed evs = true →
  ∃ w',
    receive evs w = (Normal tt, w') ∧
    Bootstrap.snap (app w')
      = run (omap live_of evs) (Bootstrap.snap (app w)) ∧
    mounted r (service w').
Proof.
  revert w. induction evs as [|[event data] evs IH]; intros w Hm Htyped.
  - exists w. done.
  - cbn [forallb] in Htyped. apply andb_true_iff in Htyped as [Ht Hts].
    destruct (socket_handler_step event data w)
      as (w1 & H1 & Hl1 & _ & Ha1 & _).
    assert (mounted r (service w1)) as Hm1
      by (by apply (mounted_same_listeners r w)).
    destruct (IH w1 Hm1 Hts) as (w' & Hrun & Hsnap & Hm').
    exists w'. split_and!; [| |done].
    + unfold receive in *. cbn [forEach]. unfold JS.bind at 1.
      by rewrite H1.
    + rewrite Hsnap, Ha1, (Hm event), component_listeners_handle by done.
      change (omap live_of ((event, data) :: evs))
        with (match live_of (event, data) with
              | Some e => e :: omap live_of evs
              | None => omap live_of evs
              end).
      by destruct (live_of (event, data)).
Qed.

Lemma Set_add_fresh (cb : callback Bootstrap.world)
    (l : list (callback Bootstrap.world)) :
  ref cb ∉ ref <$> l → Set_add cb l = l ++ [cb].
Proof.
  intros Hfresh. unfold Set_add.
  destruct (existsb _ l) eqn:E; [|done].
  exfalso. apply existsb_exists in E as (c & Hc & Hb).
  apply bool_decide_eq_true in Hb. apply Hfresh. rewrite <- Hb.
  apply list_elem_of_fmap_2. by apply list_elem_of_In.
Qed.

Lemma mount_registered (r : nat) w :
  refs_below r (service w) →
  ∃ w',
    mount r w = (Normal tt, w') ∧
    (∀ event, registered event (service w')
              = registered event (service w) ++ component_listeners r event) ∧
    app w' = app w ∧
    (∀ sk, socket (service w) = Some sk →
           socket (service w') = Some sk ∧ transport w' = transport w) ∧
    (socket (service w) = None →
     ∃ sk, socket (service w') = Some sk ∧
           transport w' = transport w ++ [IoOpen sk]).
Proof.
  intros Hbelow. unfold mount.
  assert (∃ w0, connect w = (Normal tt, w0) ∧
                listeners (service w0) = listeners (service w) ∧
                app w0 = app w ∧
                (∀ sk, socket (service w) = Some sk →
                       socket (service w0) = Some sk ∧
                       transport w0 = transport w) ∧
                (socket (service w) = None →
                 ∃ sk, socket (service w0) = Some sk ∧
                       transport w0 = transport w ++ [IoOpen sk]))
    as (w0 & Hc & Hl0 & Ha0 & Hsome & Hnone).
  { unfold connect. step_channel. destruct (socket (service w)) as [sk|] eqn:E.
    - exists w. split_and!; try done. by intros sk' [= <-].
    - eexists. split; [reflexivity|]. split_and!; try done. intros _.
      eexists. split; reflexivity. }
  destruct (on_registered CONNECT (onConnect r) w0)
    as (w1 & H1 & Hs1 & Ha1 & Ht1 & R1).
  destruct (on_registered DISCONNECT (onDisconnect r) w1)
    as (w2 & H2 & Hs2 & Ha2 & Ht2 & R2).
  destruct (on_registered AGENT_UPDATE (onAgentUpdate r) w2)
    as (w3 & H3 & Hs3 & Ha3 & Ht3 & R3).
  destruct (on_registered AGENT_MESSAGE (onAgentMessage r) w3)
    as (w4 & H4 & Hs4 & Ha4 & Ht4 & R4).
  destruct (on_registered AGENT_THINKING (onAgentThinking r) w4)
    as (w5 & H5 & Hs5 & Ha5 & Ht5 & R5).
  destruct (on_registered AGENT_HANDOVER (onAgentHandover r) w5)
    as (w6 & H6 & Hs6 & Ha6 & Ht6 & R6).
  exists w6. unfold JS.bind. rewrite Hc, H1, H2, H3, H4, H5, H6.
  split_and!; [done | | congruence | |].
  - intros event.
    assert (∀ e, registered e (service w0) = registered e (service w)) as Hreg0
      by (intros e; by apply registered_same_listeners).
    assert (∀ e (cb : callback Bootstrap.world),
              (r ≤ ref cb)%nat →
              Set_add cb (registered e (service w))
              = registered e (service w) ++ [cb]) as Hfresh.
    { intros e cb Hcb. apply Set_add_fresh.
      intros (c & E & Hin)%list_elem_of_fmap.
      specialize (Hbelow e c Hin). lia. }
    rewrite R6, R5, R4, R3, R2, R1, Hreg0.
    destruct event; cbn [component_listeners];
      repeat (first [ rewrite decide_True by done
                    | rewrite decide_False by done ]);
      rewrite ?app_nil_r; try done;
      apply Hfresh; cbn [ref onConnect onDisconnect onAgentUpdate
        onAgentMessage onAgentThinking onAgentHandover]; lia.
  - intros sk Hsk. destruct (Hsome sk Hsk) as [Hs0 Ht0].
    split; congruence.
  - intros Hsk. destruct (Hnone Hsk) as (sk & Hs0 & Ht0).
    exists sk. split; congruence.
Qed.

Lemma component_refs_below (r : nat) (event : SocketEvent)
    (cb : callback Bootstrap.world) :
  cb ∈ component_listeners r event → (r ≤ ref cb < r + 6)%nat.
Proof.
  destruct event; cbn [component_listeners];
    first [ by intros ?%elem_of_nil
          | intros ->%list_elem_of_singleton; cbn; lia ].
Qed.

Lemma unmount_registered (r : nat) w :
  refs_below (r + 6) (service w) →
  ∃ w',
    unmount r w = (Normal tt, w') ∧
    (∀ e, registered e (service w') = registered e (service w)) ∧
    socket (service w') = None ∧
    app w' = app w ∧
    transport w' =
      transport w ++
      match socket (service w) with Some _ => [SocketDisconnect] | None => [] end.
Proof.
  intros Hbelow. unfold unmount.
  assert (∀ (k : nat) e w1,
            (∀ e', registered e' (service w1) = registered e' (service w)) →
            ref (empty_arrow (r + 6 + k)) ∉ ref <$> registered e (service w1))
    as Hfresh.
  { intros k e w1 Hsame (c & E & Hin)%list_elem_of_fmap.
    rewrite Hsame in Hin. specialize (Hbelow e c Hin). cbn in E. lia. }
  destruct (off_fresh CONNECT (empty_arrow (r + 6)) w)
    as (w1 & H1 & R1 & S1 & A1 & T1).
  { replace (r + 6)%nat with (r + 6 + 0)%nat by lia. by apply Hfresh. }
  destruct (off_fresh DISCONNECT (empty_arrow (r + 7)) w1)
    as (w2 & H2 & R2 & S2 & A2 & T2).
  { replace (r + 7)%nat with (r + 6 + 1)%nat by lia. by apply Hfresh. }
  destruct (off_fresh AGENT_UPDATE (empty_arrow (r + 8)) w2)
    as (w3 & H3 & R3 & S3 & A3 & T3).
  { replace (r + 8)%nat with (r + 6 + 2)%nat by lia. apply Hfresh.
    intros e'. by rewrite R2. }
  destruct (off_fresh AGENT_MESSAGE (empty_arrow (r + 9)) w3)
    as (w4 & H4 & R4 & S4 & A4 & T4).
  { replace (r + 9)%nat with (r + 6 + 3)%nat by lia. apply Hfresh.
    intros e'. by rewrite R3, R2. }
  destruct (off_fresh AGENT_THINKING (empty_arrow (r + 10)) w4)
    as (w5 & H5 & R5 & S5 & A5 & T5).
  { replace (r + 10)%nat with (r + 6 + 4)%nat by lia. apply Hfresh.
    intros e'. by rewrite R4, R3, R2. }
  destruct (off_fresh AGENT_HANDOVER (empty_arrow (r + 11)) w5)
    as (w6 & H6 & R6 & S6 & A6 & T6).
  { replace (r + 11)%nat with (r + 6 + 5)%nat by lia. apply Hfresh.
    intros e'. by rewrite R5, R4, R3, R2. }
  destruct (disconnect_step w6)
    as (w7 & H7 & S7 & _ & _ & _ & _ & L7 & A7 & _ & _ & T7).
  exists w7. unfold JS.bind. rewrite H1, H2, H3, H4, H5, H6, H7.
  split_and!; [done | | done | congruence |].
  - intros e. rewrite (registered_same_listeners e _ _ L7).
    by rewrite R6, R5, R4, R3, R2, R1.
  - rewrite T7, T6, T5, T4, T3, T2, T1, S6, S5, S4, S3, S2, S1. done.
Qed.

(** The snapshot [Bootstrap.fetchData] leaves does not depend on the
    console it started with. *)
Lemma fetchData_snap (srv : Bootstrap.server) (sch : Bootstrap.schedule)
    (s : snapshot) (c c' : list log_entry) :
  Bootstrap.snap
    (Bootstrap.fetchData srv sch {| Bootstrap.snap := s;
                                    Bootstrap.console := c |}).2
  = Bootstrap.snap
      (Bootstrap.fetchData srv sch {| Bootstrap.snap := s;
                                      Bootstrap.console := c' |}).2.
Proof. by destruct srv as [[?|[?|]] [?|[?|]] [?|[?|]]]. Qed.

(** Without a connect event the flag does not turn true. *)
Lemma no_connect_keeps_offline (evs : list (SocketEvent * payload))
    (s : snapshot) :
  forallb no_connect evs = true → Projector.isConnected s = false →
  Projector.isConnected (run (omap live_of evs) s) = false.
Proof.
  revert s. induction evs as [|[event data] evs IH]; intros s Hno Hoff; [done|].
  cbn [forallb] in Hno. apply andb_true_iff in Hno as [Hev Hno].
  change (omap live_of ((event, data) :: evs))
    with (match live_of (event, data) with
          | Some e => e :: omap live_of evs
          | None => omap live_of evs
          end).
  destruct (live_of (event, data)) as [e|] eqn:El; [|by apply IH].
  cbn [run foldl]. apply IH; [done|].
  destruct event, data; cbn in El, Hev; try discriminate;
    injection El as <-; done.
Qed.

(** One wait of the bootstrap on the channel. *)
Lemma await_mounted {A} (r : nat) (pending : list (SocketEvent * payload))
    (q : Bootstrap.fetched A) w :
  mounted r (service w) → forallb well_typed pending = true →
  ∃ w',
    await pending q w
    = (match q with
       | Bootstrap.Rejected reason => Throw (NetworkError reason)
       | Bootstrap.Resolved field => Normal field
       end, w') ∧
    Bootstrap.snap (app w')
      = run (omap live_of pending) (Bootstrap.snap (app w)) ∧
    mounted r (service w').
Proof.
  intros Hm Ht. destruct (receive_mounted r pending w Hm Ht)
    as (w' & Hrun & Hsnap & Hm').
  exists w'. unfold await, JS.bind. rewrite Hrun. by destruct q.
Qed.

(** [fetchData] on the channel leaves the snapshot that [Bootstrap.fetchData]
    leaves for the socket events the traffic amounts to. *)
Lemma fetchData_on_channel (r : nat) (srv : Bootstrap.server) (t : traffic) w :
  mounted r (service w) →
  forallb well_typed (while_agents t) = true →
  forallb well_typed (while_messages t) = true →
  forallb well_typed (while_handovers t) = true →
  ∃ w',
    fetchData srv t w = (Normal tt, w') ∧
    mounted r (service w') ∧
    Bootstrap.snap (app w')
      = Bootstrap.snap (Bootstrap.fetchData srv (schedule_of t) (app w)).2.
Proof.
  intros Hm H0 H1 H2. destruct t as [t0 t1 t2], srv as [qa qm qh].
  cbn [while_agents while_messages while_handovers] in *.
  unfold fetchData, schedule_of, try_catch, JS.bind.
  cbn [while_agents while_messages while_handovers
       Bootstrap.api_agents Bootstrap.api_messages Bootstrap.api_handovers].
  destruct (await_mounted r t0 qa w Hm H0) as (w1 & E1 & S1 & M1).
  rewrite E1. destruct (app w) as [s c] eqn:Ea. cbn [Bootstrap.snap] in S1.
  destruct qa as [ra|fa].
  { eexists. split; [reflexivity|]. split; [exact M1|].
    cbn. by rewrite S1. }
  set (w1' := (match fa with
               | Some o =>
                   in_component
                     (Bootstrap.update
                        (setAgents (λ _, Bootstrap.Object_values o)))
               | None => ret tt
               end w1).2).
  assert (mounted r (service w1')) as M1' by (unfold w1'; by destruct fa).
  assert (Bootstrap.snap (app w1')
          = Bootstrap.install_agents fa (run (omap live_of t0) s)) as S1'.
  { unfold w1'. destruct fa; cbn; by rewrite S1. }
  replace (match fa with
           | Some o =>
               in_component
                 (Bootstrap.update
                    (setAgents (λ _, Bootstrap.Object_values o)))
           | None => ret tt
           end w1) with (Normal tt, w1') by (unfold w1'; by destruct fa).
  destruct (await_mounted r t1 qm w1' M1' H1) as (w2 & E2 & S2 & M2).
  rewrite E2. rewrite S1' in S2.
  destruct qm as [rm|fm].
  { eexists. split; [reflexivity|]. split; [exact M2|].
    cbn. rewrite S2. by destruct fa. }
  set (w2' := (match fm with
               | Some ms =>
                   in_component (Bootstrap.update (setMessages (λ _, ms)))
               | None => ret tt
               end w2).2).
  assert (mounted r (service w2')) as M2' by (unfold w2'; by destruct fm).
  assert (Bootstrap.snap (app w2')
          = Bootstrap.install_messages fm
              (run (omap live_of t1)
                 (Bootstrap.install_agents fa (run (omap live_of t0) s))))
    as S2'.
  { unfold w2'. destruct fm; cbn; by rewrite S2. }
  replace (match fm with
           | Some ms =>
               in_component (Bootstrap.update (setMessages (λ _, ms)))
           | None => ret tt
           end w2) with (Normal tt, w2') by (unfold w2'; by destruct fm).
  destruct (await_mounted r t2 qh w2' M2' H2) as (w3 & E3 & S3 & M3).
  rewrite E3. rewrite S2' in S3.
  destruct qh as [rh|fh].
  { eexists. split; [reflexivity|]. split; [exact M3|].
    cbn. rewrite S3. by destruct fa, fm. }
  destruct fh as [hs|].
  - eexists. split; [reflexivity|]. split; [exact M3|].
    cbn. rewrite S3. by destruct fa, fm.
  - eexists. split; [reflexivity|]. split; [exact M3|].
    cbn. rewrite S3. by destruct fa, fm.
Qed.

(** X23.  End to end, the bootstrap included.  The component subscribes on a
    channel without other listeners while its flag is false; well-typed
    events are raised, none of them a connect event; the transport connects,
    the flag turns true and the bootstrap starts; further well-typed events
    are raised during its three waits and after it.  Up to the connect event
    the snapshot is the fold of the State Projector's handler over the
    events and the flag stays false, so no bootstrap starts earlier.  At the
    end the snapshot is the one [Bootstrap.fetchData] leaves, started on that
    fold with the connect event applied and given the socket events of the
    three waits, with the events raised afterwards folded on top: each event
    is applied once, in the order raised, and events the component does not
    listen to change nothing. *)
Theorem mounted_component_follows_the_transport (r : nat)
    (srv : Bootstrap.server) (before after : list (SocketEvent * payload))
    (t : traffic) w :
  (∀ event, registered event (service w) = []) →
  Projector.isConnected (Bootstrap.snap (app w)) = false →
  forallb well_typed
    (before ++ while_agents t ++ while_messages t ++ while_handovers t
     ++ after) = true →
  forallb no_connect
    (before ++ while_agents t ++ while_messages t ++ while_handovers t
     ++ after) = true →
  (∃ w0,
     JS.bind (mount r) (λ _, receive before) w = (Normal tt, w0) ∧
     Bootstrap.snap (app w0)
       = run (omap live_of before) (Bootstrap.snap (app w)) ∧
     Projector.isConnected (Bootstrap.snap (app w0)) = false) ∧
  ∃ w',
    session r srv before t after w = (Normal tt, w') ∧
    Bootstrap.snap (app w')
      = run (omap live_of after)
          (Bootstrap.snap
             (Bootstrap.fetchData srv (schedule_of t)
                {| Bootstrap.snap :=
                     run (omap live_of before ++ [EvConnect])
                       (Bootstrap.snap (app w));
                   Bootstrap.console := [] |}).2).
Proof.
  intros Hnone Hoff Htyped Hquiet.
  rewrite !forallb_app in Htyped.
  apply andb_true_iff in Htyped as [Tb Htyped].
  apply andb_true_iff in Htyped as [T0 Htyped].
  apply andb_true_iff in Htyped as [T1 Htyped].
  apply andb_true_iff in Htyped as [T2 Ta].
  rewrite !forallb_app in Hquiet. apply andb_true_iff in Hquiet as [Qb _].
  destruct (mount_registered r w) as (w1 & H1 & R1 & A1 & _).
  { intros event cb Hin. rewrite Hnone in Hin. by apply elem_of_nil in Hin. }
  destruct (receive_mounted r before w1) as (w2 & H2 & S2 & M2).
  { intros event. by rewrite R1, Hnone. }
  { done. }
  rewrite A1 in S2.
  split.
  { exists w2. unfold JS.bind. rewrite H1, H2. split_and!; [done | done |].
    rewrite S2. by apply no_connect_keeps_offline. }
  destruct (receive_mounted r [(CONNECT, PNull)] w2 M2 eq_refl)
    as (w3 & H3 & S3 & M3).
  unfold receive in H3. cbn [forEach] in H3. unfold JS.bind in H3.
  destruct (socket_handler CONNECT PNull w2) as [[[]|e] w3'] eqn:E3;
    [|discriminate H3].
  injection H3 as ->.
  destruct (fetchData_on_channel r srv t w3 M3 T0 T1 T2)
    as (w4 & H4 & M4 & S4).
  destruct (receive_mounted r after w4 M4 Ta) as (w5 & H5 & S5 & _).
  exists w5. unfold session, JS.bind. rewrite H1, H2, E3, H4, H5.
  split; [done|]. rewrite S5, S4. f_equal.
  destruct (app w3) as [s3 c3] eqn:Ea3. cbn [Bootstrap.snap] in S3.
  rewrite (fetchData_snap _ _ s3 c3 []). do 3 f_equal.
  rewrite S3, S2. cbn [omap live_of]. by rewrite run_app.
Qed.

(** X24.  The clean-up removes no listener: it hands [off] six new arrow
    functions, which were never subscribed, so after it the channel is
    disconnected but still carries the six listeners of the effect, and
    events raised later still reach them. *)
Theorem cleanup_leaves_the_listeners (r : nat)
    (evs : list (SocketEvent * payload)) w :
  (∀ event, registered event (service w) = []) →
  forallb well_typed evs = true →
  ∃ w',
    JS.bind (mount r) (λ _, unmount r) w = (Normal tt, w') ∧
    connection_state (service w') = Disconnected ∧
    mounted r (service w') ∧
    ∃ w'',
      receive evs w' = (Normal tt, w'') ∧
      Bootstrap.snap (app w'')
        = run (omap live_of evs) (Bootstrap.snap (app w)).
Proof.
  intros Hnone Htyped.
  destruct (mount_registered r w) as (w1 & H1 & R1 & A1 & _).
  { intros event cb Hin. rewrite Hnone in Hin. by apply elem_of_nil in Hin. }
  assert (mounted r (service w1)) as Hm1.
  { intros event. by rewrite R1, Hnone. }
  destruct (unmount_registered r w1) as (w2 & H2 & R2 & S2 & A2 & _).
  { intros event cb Hin. rewrite Hm1 in Hin.
    apply component_refs_below in Hin. lia. }
  assert (mounted r (service w2)) as Hm2.
  { intros event. by rewrite R2. }
  destruct (receive_mounted r evs w2 Hm2 Htyped) as (w3 & H3 & Hsnap & _).
  exists w2. unfold JS.bind. rewrite H1, H2. split_and!; [done | | done |].
  - unfold connection_state. by rewrite S2.
  - exists w3. split; [done|]. by rewrite Hsnap, A2, A1.
Qed.

(** X25.  Running the effect again after its clean-up doubles the
    listeners: every event kind the component listens to then has the
    listener of the first run and that of the second, so each such event
    makes two calls. *)
Theorem effect_rerun_doubles_the_listeners (r r' : nat)
    (event : SocketEvent) (data : payload) w :
  (∀ event, registered event (service w) = []) →
  (r + 12 ≤ r')%nat →
  ∃ w',
    JS.bind (mount r) (λ _, JS.bind (unmount r) (λ _, mount r')) w
    = (Normal tt, w') ∧
    registered event (service w')
      = component_listeners r event ++ component_listeners r' event ∧
    drop (length (calls w')) (calls (socket_handler event data w').2)
      = (λ cb, (event_name event, ref cb))
        <$> (component_listeners r event ++ component_listeners r' event).
Proof.
  intros Hnone Hfar.
  destruct (mount_registered r w) as (w1 & H1 & R1 & _).
  { intros e cb Hin. rewrite Hnone in Hin. by apply elem_of_nil in Hin. }
  assert (mounted r (service w1)) as Hm1.
  { intros e. by rewrite R1, Hnone. }
  destruct (unmount_registered r w1) as (w2 & H2 & R2 & _).
  { intros e cb Hin. rewrite Hm1 in Hin.
    apply component_refs_below in Hin. lia. }
  destruct (mount_registered r' w2) as (w3 & H3 & R3 & _).
  { intros e cb Hin. rewrite R2, Hm1 in Hin.
    apply component_refs_below in Hin. lia. }
  exists w3. unfold JS.bind. rewrite H1, H2, H3.
  assert (registered event (service w3)
          = component_listeners r event ++ component_listeners r' event) as Hreg
    by (by rewrite R3, R2, Hm1).
  split_and!; [done | done |].
  destruct (socket_handler_step event data w3) as (w4 & H4 & _ & Hc4 & _).
  rewrite H4. cbn [snd]. by rewrite Hc4, drop_app_length, Hreg.
Qed.

(** X26.  The doubled listeners share the component's state: after the
    effect has run, been cleaned up and run again, a single agent-message
    event puts the message into the log twice. *)
Theorem effect_rerun_duplicates_messages (r r' : nat) (m : AgentMessage) w :
  (∀ event, registered event (service w) = []) →
  (r + 12 ≤ r')%nat →
  ∃ w',
    JS.bind (mount r) (λ _, JS.bind (unmount r) (λ _,
    JS.bind (mount r') (λ _, socket_handler AGENT_MESSAGE (PMessage m)))) w
    = (Normal tt, w') ∧
    messages (Bootstrap.snap (app w'))
      = messages (Bootstrap.snap (app w)) ++ [m; m].
Proof.
  intros Hnone Hfar.
  destruct (mount_registered r w) as (w1 & H1 & R1 & A1 & _).
  { intros e cb Hin. rewrite Hnone in Hin. by apply elem_of_nil in Hin. }
  assert (mounted r (service w1)) as Hm1.
  { intros e. by rewrite R1, Hnone. }
  destruct (unmount_registered r w1) as (w2 & H2 & R2 & _ & A2 & _).
  { intros e cb Hin. rewrite Hm1 in Hin.
    apply component_refs_below in Hin. lia. }
  destruct (mount_registered r' w2) as (w3 & H3 & R3 & A3 & _).
  { intros e cb Hin. rewrite R2, Hm1 in Hin.
    apply component_refs_below in Hin. lia. }
  destruct (socket_handler_step AGENT_MESSAGE (PMessage m) w3)
    as (w4 & H4 & _ & _ & A4 & _).
  exists w4. unfold JS.bind. rewrite H1, H2, H3, H4. split; [done|].
  rewrite A4, R3, R2, Hm1, A3, A2, A1.
  cbn. by rewrite <- app_assoc.
Qed.

End NetworkFacts.

Section NetworkWitnesses.
Import JS Projector Channel Network.

Lemma mounted_component_follows_the_transport_witness :
  ∃ w', session 1 Scenario.healthy_server [] Scenario.traffic_in_flight
          [(AGENT_MESSAGE, PMessage Scenario.hello)] Scenario.fresh_network
        = (Normal tt, w') ∧
        agents (Bootstrap.snap (app w')) = [Scenario.agentA; Scenario.agentB] ∧
        messages (Bootstrap.snap (app w')) = [Scenario.hello; Scenario.hello] ∧
        Projector.isConnected (Bootstrap.snap (app w')) = true.
Proof.
  destruct (mounted_component_follows_the_transport 1 Scenario.healthy_server
              [] [(AGENT_MESSAGE, PMessage Scenario.hello)]
              Scenario.traffic_in_flight Scenario.fresh_network)
    as (_ & w' & Hrun & Hsnap).
  - intros event. by destruct event.
  - reflexivity.
  - reflexivity.
  - reflexivity.
  - exists w'. split; [exact Hrun|]. rewrite Hsnap.
    split_and!; reflexivity.
Defined.

Lemma cleanup_leaves_the_listeners_witness :
  ∃ w', JS.bind (mount 1) (λ _, unmount 1) Scenario.fresh_network
        = (Normal tt, w') ∧
        registered AGENT_MESSAGE (service w') = [onAgentMessage 1].
Proof.
  destruct (cleanup_leaves_the_listeners 1 [] Scenario.fresh_network)
    as (w' & Hrun & _ & Hm & _).
  - intros event. by destruct event.
  - reflexivity.
  - exists w'. split; [exact Hrun | exact (Hm AGENT_MESSAGE)].
Defined.

Lemma effect_rerun_doubles_the_listeners_witness :
  ∃ w', JS.bind (mount 1) (λ _, JS.bind (unmount 1) (λ _, mount 13))
          Scenario.fresh_network = (Normal tt, w') ∧
        registered AGENT_UPDATE (service w')
        = [onAgentUpdate 1; onAgentUpdate 13].
Proof.
  destruct (effect_rerun_doubles_the_listeners 1 13 AGENT_UPDATE PNull
              Scenario.fresh_network) as (w' & Hrun & Hreg & _).
  - intros event. by destruct event.
  - lia.
  - exists w'. split; [exact Hrun | exact Hreg].
Defined.

Lemma effect_rerun_duplicates_messages_witness :
  ∃ w', JS.bind (mount 1) (λ _, JS.bind (unmount 1) (λ _,
        JS.bind (mount 13) (λ _,
          socket_handler AGENT_MESSAGE (PMessage Scenario.hello))))
          Scenario.fresh_network = (Normal tt, w') ∧
        messages (Bootstrap.snap (app w')) = [Scenario.hello; Scenario.hello].
Proof.
  apply (effect_rerun_duplicates_messages 1 13 Scenario.hello
           Scenario.fresh_network).
  - intros event. by destruct event.
  - lia.
Defined.

End NetworkWitnesses.

(* ===================================================================== *)
(** * Rendering the snapshot *)
(* ===================================================================== *)

Section RenderFacts.
Import JS Projector Network.



End RenderFacts.
